(** * Random map picker: the search routine of [src/routes/+page.svelte]

    The page's script is embedded function by function, under the names it
    has in the source.  JavaScript numbers are IEEE binary64 values; the ones
    this script handles are NaN, the infinities and integer-valued doubles,
    which are carried as [Z] with the rounding to 53 significant bits written
    out.  Strings are sequences of code units below U+0100.  The network and
    [Math.random] are an oracle that answers the calls in the order they are
    made. *)

From Stdlib Require Import ZArith List String Ascii Bool Lia DecimalString.
Import ListNotations.

Local Open Scope Z_scope.

(* ================================================================== *)
(** ** JavaScript numbers *)
(* ================================================================== *)

Module Double.

(** Round a natural number to 53 significant bits, ties to the even
    significand (the default IEEE rounding of every arithmetic result). *)
Definition round_nat (p : Z) : Z :=
  if p <? 2 ^ 53 then p
  else
    let s := Z.log2 p - 52 in
    let q := p / 2 ^ s in
    let rest := p mod 2 ^ s in
    let half := 2 ^ (s - 1) in
    if (half <? rest) || ((rest =? half) && Z.odd q)
    then (q + 1) * 2 ^ s
    else q * 2 ^ s.

Definition round (z : Z) : Z :=
  if z <? 0 then - round_nat (- z) else round_nat z.

(** An integer is a double when rounding leaves it alone and it lies below
    the overflow threshold. *)
Definition representable (z : Z) : Prop :=
  round z = z /\ Z.abs z < 2 ^ 1024.

Definition MAX_SAFE_INTEGER : Z := 2 ^ 53 - 1.

(** The numbers of this script.  [Int z] is the double whose value is the
    integer [z]; the two zeros are not told apart, no operation below
    distinguishes them. *)
Inductive number : Type :=
| NaN
| Infinity (negative : bool)
| Int (z : Z).

(** The Number value for a mathematical integer: rounded, and infinite from
    2^1024 on. *)
Definition of_Z (z : Z) : number :=
  let r := round z in
  if 2 ^ 1024 <=? Z.abs r then Infinity (z <? 0) else Int r.

Definition neg (a : number) : number :=
  match a with
  | NaN => NaN
  | Infinity s => Infinity (negb s)
  | Int z => Int (- z)
  end.

Definition add (a b : number) : number :=
  match a, b with
  | NaN, _ | _, NaN => NaN
  | Infinity s, Infinity t => if Bool.eqb s t then Infinity s else NaN
  | Infinity s, Int _ => Infinity s
  | Int _, Infinity t => Infinity t
  | Int x, Int y => of_Z (x + y)
  end.

Definition sub (a b : number) : number := add a (neg b).

(** A value of [Math.random()]: the double [mant / 2^expo], which is at
    least 0 and below 1.  Every double of that interval has this form. *)
Record unit_double : Type := { mant : Z; expo : Z }.

Definition unit_ok (r : unit_double) : Prop :=
  0 <= mant r < 2 ^ 53 /\ 0 <= expo r <= 1074 /\ mant r < 2 ^ expo r.

(** [Math.floor(r * n)].  The product of [mant / 2^expo] and the integer
    [z] is [mant * z / 2^expo] rounded to 53 significant bits; scaling by a
    power of two commutes with that rounding, and the result is neither
    subnormal with lost bits nor infinite, since it is a multiple of
    [2^-expo] of magnitude at most [|z|].  The floor of a double is exact. *)
Definition floor_mul (r : unit_double) (n : number) : number :=
  match n with
  | NaN => NaN
  | Infinity s => if mant r =? 0 then NaN else Infinity s
  | Int z => Int (round (mant r * z) / 2 ^ expo r)
  end.

(** The double nearest to the ratio [a / b] of two positive integers, as
    the pair [(m, t)] that stands for [m / 2^t]: the ratio is scaled by the
    power of two that leaves 53 bits before the point, and rounded there,
    ties to the even significand. *)
Definition round_ratio (a b : Z) : Z * Z :=
  let num t := if 0 <=? t then a * 2 ^ t else a in
  let den t := if 0 <=? t then b else b * 2 ^ (- t) in
  let t0 := 53 + Z.log2 b - Z.log2 a in
  let t := if 2 ^ 53 <=? num t0 / den t0 then t0 - 1 else t0 in
  let q := num t / den t in
  let rest := num t mod den t in
  if (den t <? 2 * rest) || ((2 * rest =? den t) && Z.odd q)
  then (q + 1, t) else (q, t).

(** [Math.floor(x / d)] for a positive integer [d]: the quotient is rounded
    to a double, then floored. *)
Definition floor_div (x : number) (d : Z) : number :=
  match x with
  | NaN => NaN
  | Infinity s => Infinity s
  | Int z =>
      if z =? 0 then Int 0
      else
        let (m, t) := round_ratio (Z.abs z) d in
        let v := if z <? 0 then - m else m in
        Int (if 0 <=? t then v / 2 ^ t else v * 2 ^ (- t))
  end.

(** [Math.floor(x % d)] for a positive integer [d]: the remainder takes the
    sign of [x] and is exact. *)
Definition floor_rem (x : number) (d : Z) : number :=
  match x with
  | NaN | Infinity _ => NaN
  | Int z => Int (Z.rem z d)
  end.

End Double.

Import Double.

(* ================================================================== *)
(** ** Built-in string and number conversions *)
(* ================================================================== *)

Module Js.

Local Open Scope string_scope.
Local Open Scope Z_scope.

Definition code (c : ascii) : Z := Z.of_N (N_of_ascii c).

(** White space and line terminators that [parseInt] skips, among the code
    units below U+0100: TAB, LF, VT, FF, CR, SP and NBSP. *)
Definition is_white_space (c : ascii) : bool :=
  let n := code c in
  ((9 <=? n) && (n <=? 13)) || (n =? 32) || (n =? 160).

Fixpoint trim_start (s : string) : string :=
  match s with
  | String c rest => if is_white_space c then trim_start rest else s
  | EmptyString => EmptyString
  end.

(** Value of a radix-16 digit; letters count in either case. *)
Definition digit_value (c : ascii) : option Z :=
  let n := code c in
  if (48 <=? n) && (n <=? 57) then Some (n - 48)
  else if (97 <=? n) && (n <=? 102) then Some (n - 87)
  else if (65 <=? n) && (n <=? 70) then Some (n - 55)
  else None.

(** The longest prefix made of radix-16 digits. *)
Fixpoint digit_prefix (s : string) : string :=
  match s with
  | String c rest =>
      match digit_value c with
      | Some _ => String c (digit_prefix rest)
      | None => EmptyString
      end
  | EmptyString => EmptyString
  end.

(** The integer a string of digits denotes, read from the left. *)
Fixpoint digits_value (acc : Z) (s : string) : Z :=
  match s with
  | String c rest =>
      digits_value (16 * acc + match digit_value c with Some d => d | None => 0 end) rest
  | EmptyString => acc
  end.

(** A leading sign: whether it is a minus, and the string without it. *)
Definition strip_sign (s : string) : bool * string :=
  match s with
  | String c rest =>
      if Ascii.eqb c "-" then (true, rest)
      else if Ascii.eqb c "+" then (false, rest)
      else (false, s)
  | EmptyString => (false, s)
  end.

(** A leading [0x] or [0X] is dropped when the radix is 16. *)
Definition strip_prefix (s : string) : string :=
  match s with
  | String c (String x rest) =>
      if Ascii.eqb c "0" && (Ascii.eqb x "x" || Ascii.eqb x "X") then rest else s
  | _ => s
  end.

(** [parseInt(input, 16)] on a string: skip white space, take a sign, take
    the prefix, read the longest run of digits; no digit gives NaN,
    otherwise the Number value of the signed integer. *)
Definition parseInt16 (input : string) : number :=
  let (negative, s) := strip_sign (trim_start input) in
  match digit_prefix (strip_prefix s) with
  | EmptyString => NaN
  | z => let v := digits_value 0 z in of_Z (if negative then - v else v)
  end.

(** The lowercase digit of a value below 16. *)
Definition hex_char (d : Z) : ascii :=
  if d <? 10 then ascii_of_N (Z.to_N (48 + d)) else ascii_of_N (Z.to_N (87 + d)).

(** The [len] low-order radix-16 digits of [n], most significant first. *)
Fixpoint hex_digits (len : nat) (n : Z) : string :=
  match len with
  | O => EmptyString
  | S l => hex_digits l (n / 16) ++ String (hex_char (n mod 16)) EmptyString
  end.

(** How many radix-16 digits a natural number takes, at least one. *)
Definition hex_length (n : Z) : nat := S (Z.to_nat (Z.log2 n / 4)).

(** [x.toString(16)].  For an integer the digits of its magnitude, without
    padding, after a minus sign when negative.  ECMAScript leaves the digits
    of magnitudes above [MAX_SAFE_INTEGER] to the engine; the exact ones are
    written here. *)
Definition toString16 (x : number) : string :=
  match x with
  | NaN => "NaN"
  | Infinity false => "Infinity"
  | Infinity true => "-Infinity"
  | Int z =>
      if z <? 0 then String "-" (hex_digits (hex_length (- z)) (- z))
      else hex_digits (hex_length z) z
  end.

(** [String(x)] and [x.toString()].  An integer up to [MAX_SAFE_INTEGER]
    in magnitude prints all its decimal digits.  Above, ECMAScript prints the
    fewest digits that still round to the number, in exponent form from
    [1e21] on: that printing is the parameter [large]. *)
Definition toString10 (large : Z -> string) (x : number) : string :=
  match x with
  | NaN => "NaN"
  | Infinity false => "Infinity"
  | Infinity true => "-Infinity"
  | Int z =>
      if Z.abs z <=? MAX_SAFE_INTEGER then NilZero.string_of_int (Z.to_int z)
      else large z
  end.

Fixpoint repeat_string (n : nat) (pad : string) : string :=
  match n with
  | O => EmptyString
  | S k => pad ++ repeat_string k pad
  end.

(** [s.padStart(target, pad)]: when [s] is shorter than [target], the pad
    string repeated and cut to the missing length goes in front. *)
Definition padStart (s : string) (target : nat) (pad : string) : string :=
  let len := String.length s in
  if (target <=? len)%nat then s
  else match pad with
       | EmptyString => s
       | _ => substring 0 (target - len) (repeat_string (target - len) pad) ++ s
       end.

(** What a response body parses to, and [undefined] for a missing property.
    A number is carried by what this script can observe of it: whether it is
    truthy, and its string form. *)
#[warnings="-register-all"]
Inductive value : Type :=
| VUndefined
| VNull
| VBool (b : bool)
| VNumber (nonzero : bool) (text : string)
| VString (s : string)
| VArray (items : list value)
| VObject (fields : list (string * value)).

(** ToBoolean. *)
Definition truthy (v : value) : bool :=
  match v with
  | VUndefined | VNull => false
  | VBool b => b
  | VNumber t _ => t
  | VString s => negb (String.eqb s "")
  | VArray _ | VObject _ => true
  end.

Fixpoint join (sep : string) (parts : list string) : string :=
  match parts with
  | [] => ""
  | [p] => p
  | p :: rest => p ++ sep ++ join sep rest
  end.

(** ToString.  An array joins its elements with commas, writing nothing
    for [null] and [undefined]. *)
Fixpoint to_string (v : value) : string :=
  match v with
  | VUndefined => "undefined"
  | VNull => "null"
  | VBool true => "true"
  | VBool false => "false"
  | VNumber _ text => text
  | VString s => s
  | VArray items =>
      join ","
        ((fix each (l : list value) : list string :=
            match l with
            | [] => []
            | x :: rest =>
                match x with
                | VUndefined | VNull => ""
                | _ => to_string x
                end :: each rest
            end) items)
  | VObject _ => "[object Object]"
  end.

(** What is thrown: an [Error] object with its message, or something that
    is not an [Error]. *)
Inductive exn : Type :=
| ErrorObj (message : string)
| NonError.

Inductive outcome (A : Type) : Type :=
| Ret (a : A)
| Throw (e : exn).
Arguments Ret {A} a.
Arguments Throw {A} e.

Fixpoint lookup (key : string) (fields : list (string * value)) : value :=
  match fields with
  | [] => VUndefined
  | (k, v) :: rest => if String.eqb k key then v else lookup key rest
  end.

(** [v.name] for a property name that no built-in prototype defines
    ([docs], [id]).  Reading a property of [null] or [undefined] throws a
    TypeError, whose message the engine words. *)
Definition get_named (type_error : string) (v : value) (name : string) : outcome value :=
  match v with
  | VUndefined | VNull => Throw (ErrorObj type_error)
  | VObject fields => Ret (lookup name fields)
  | _ => Ret VUndefined
  end.

(** [v[0]]. *)
Definition get_first (type_error : string) (v : value) : outcome value :=
  match v with
  | VUndefined | VNull => Throw (ErrorObj type_error)
  | VObject fields => Ret (lookup "0" fields)
  | VArray items => Ret (match items with x :: _ => x | [] => VUndefined end)
  | VString (String c _) => Ret (VString (String c EmptyString))
  | _ => Ret VUndefined
  end.

End Js.

Import Js.

(* ================================================================== *)
(** ** The page: its state, the network, and the search *)
(* ================================================================== *)

Module Page.

Local Open Scope string_scope.

(** A [Response]: its [ok] flag and what [response.json()] settles to. *)
Record response : Type := { ok : bool; json : outcome value }.

(** The three places of the script that call [fetch]. *)
Inductive site : Type := AtLatest | AtProbe | AtDetail.

Record call : Type := { from : site; url : string }.

(** Everything outside the script: how the [n]-th [fetch] of a URL settles
    (rejected with what it throws, or resolved with a response), the value
    of the [n]-th [Math.random()], and the engine's wording of the TypeError
    for a property read on [null] or [undefined]. *)
Record world : Type := {
  fetch_answer : nat -> string -> outcome response;
  random_answer : nat -> unit_double;
  type_error_message : string
}.

(** The component's three variables, with the calls made so far. *)
Record state : Type := {
  randomMap : value;
  isLoading : bool;
  error : option string;
  calls : list call;
  draws : nat
}.

Definition initial : state :=
  {| randomMap := VNull; isLoading := false; error := None; calls := []; draws := 0 |}.

Definition set_randomMap (v : value) (st : state) : state :=
  {| randomMap := v; isLoading := isLoading st; error := error st;
     calls := calls st; draws := draws st |}.

Definition set_isLoading (b : bool) (st : state) : state :=
  {| randomMap := randomMap st; isLoading := b; error := error st;
     calls := calls st; draws := draws st |}.

Definition set_error (e : option string) (st : state) : state :=
  {| randomMap := randomMap st; isLoading := isLoading st; error := e;
     calls := calls st; draws := draws st |}.

Definition record_call (c : call) (st : state) : state :=
  {| randomMap := randomMap st; isLoading := isLoading st; error := error st;
     calls := calls st ++ [c]; draws := draws st |}.

Definition record_draw (st : state) : state :=
  {| randomMap := randomMap st; isLoading := isLoading st; error := error st;
     calls := calls st; draws := S (draws st) |}.

(** Code that reads and writes the state and either returns or throws. *)
Definition M (A : Type) : Type := state -> outcome A * state.

Definition ret {A} (a : A) : M A := fun st => (Ret a, st).

Definition throw {A} (e : exn) : M A := fun st => (Throw e, st).

Definition bind {A B} (c : M A) (k : A -> M B) : M B :=
  fun st =>
    match c st with
    | (Ret a, st') => k a st'
    | (Throw e, st') => (Throw e, st')
    end.

Definition try_catch {A} (c : M A) (handler : exn -> M A) : M A :=
  fun st =>
    match c st with
    | (Ret a, st') => (Ret a, st')
    | (Throw e, st') => handler e st'
    end.

Definition lift {A} (o : outcome A) : M A := fun st => (o, st).

Notation "x <- c ;; k" := (bind c (fun x => k))
  (at level 61, c at next level, right associativity).
Notation "c ;;; k" := (bind c (fun _ => k))
  (at level 61, right associativity).

Definition latest_url : string := "https://api.beatsaver.com/maps/latest".

Definition map_url (mapId : string) : string :=
  "https://api.beatsaver.com/maps/id/" ++ mapId.

Definition maxAttempts : nat := 10.

Definition lookup_failed : string := "Failed to fetch latest map".

Definition not_found : string := "Could not find a valid map after multiple attempts".

Definition unexpected : string := "An unexpected error occurred".

Section Script.

Variable w : world.

(** [await fetch(u)], called from [s]. *)
Definition fetch (s : site) (u : string) : M response :=
  fun st =>
    (fetch_answer w (List.length (calls st)) u,
     record_call {| from := s; url := u |} st).

(** [await response.json()]. *)
Definition response_json (r : response) : M value := lift (json r).

(** [Math.random()]. *)
Definition random : M unit_double :=
  fun st => (Ret (random_answer w (draws st)), record_draw st).

Definition fetchLatestMapId : M value :=
  response <- fetch AtLatest latest_url ;;
  if negb (ok response) then throw (ErrorObj lookup_failed)
  else
    data <- response_json response ;;
    docs <- lift (get_named (type_error_message w) data "docs") ;;
    first <- lift (get_first (type_error_message w) docs) ;;
    lift (get_named (type_error_message w) first "id").

Definition checkMapExists (mapId : string) : M bool :=
  try_catch
    (response <- fetch AtProbe (map_url mapId) ;;
     ret (ok response))
    (fun _ => ret false).

(** [parseInt] first turns its argument into a string. *)
Definition hexToDecimal (hex : value) : number := parseInt16 (to_string hex).

Definition decimalToHex (decimal : number) : string :=
  padStart (toString16 decimal) 1 "0".

Definition getRandomNumber (min max : number) : M number :=
  r <- random ;;
  ret (add (floor_mul r (add (sub max min) (Int 1))) min).

Definition formatDuration (large : Z -> string) (seconds : number) : string :=
  let minutes := floor_div seconds 60 in
  let remainingSeconds := floor_rem seconds 60 in
  toString10 large minutes ++ ":" ++ padStart (toString10 large remainingSeconds) 2 "0".

(** The [while (attempts < maxAttempts)] loop, by the number of attempts
    that remain, [maxAttempts - attempts].  A hit stores the details and
    breaks; a miss increments [attempts]. *)
Fixpoint attempt_loop (remaining : nat) (maxDecimal : number) : M unit :=
  match remaining with
  | O => ret tt
  | S fewer =>
      randomDecimal <- getRandomNumber (Int 1) maxDecimal ;;
      let randomHex := decimalToHex randomDecimal in
      exists_ <- checkMapExists randomHex ;;
      if exists_ then
        response <- fetch AtDetail (map_url randomHex) ;;
        details <- response_json response ;;
        fun st => (Ret tt, set_randomMap details st)
      else attempt_loop fewer maxDecimal
  end.

(** The [try] block of [findRandomMap]. *)
Definition search : M unit :=
  latestMapId <- fetchLatestMapId ;;
  let maxDecimal := hexToDecimal latestMapId in
  attempt_loop maxAttempts maxDecimal ;;;
  fun st =>
    if negb (truthy (randomMap st)) then (Throw (ErrorObj not_found), st)
    else (Ret tt, st).

Definition message_of (e : exn) : string :=
  match e with
  | ErrorObj message => message
  | NonError => unexpected
  end.

(** One click on the button: reset, [try], [catch], [finally]. *)
Definition findRandomMap (st : state) : state :=
  let st := set_randomMap VNull (set_error None (set_isLoading true st)) in
  let st :=
    match search st with
    | (Ret _, st') => st'
    | (Throw e, st') => set_error (Some (message_of e)) st'
    end in
  set_isLoading false st.

End Script.



Definition map_shown (st : state) : bool := truthy (randomMap st).

End Page.

Import Page.

(** Predicates the statements below use. *)

Fixpoint string_forall (p : ascii -> bool) (s : string) : bool :=
  match s with
  | String c rest => p c && string_forall p rest
  | EmptyString => true
  end.

Definition is_lower_hex (c : ascii) : bool :=
  let n := code c in
  ((48 <=? n) && (n <=? 57)) || ((97 <=? n) && (n <=? 102)).

(** Non-empty, lowercase radix-16 digits only, and a leading zero only as
    the whole string. *)
Definition canonical_hex (s : string) : bool :=
  match s with
  | EmptyString => false
  | String c rest =>
      string_forall is_lower_hex s && (negb (Ascii.eqb c "0") || String.eqb rest "")
  end.

(** Statements about a search speak of the calls it made. *)

Definition site_eqb (a b : site) : bool :=
  match a, b with
  | AtLatest, AtLatest | AtProbe, AtProbe | AtDetail, AtDetail => true
  | _, _ => false
  end.

Definition count_from (s : site) (cs : list call) : nat :=
  List.length (filter (fun c => site_eqb (from c) s) cs).

Definition latest_call : call := {| from := AtLatest; url := latest_url |}.

Definition probe_call (mapId : string) : call :=
  {| from := AtProbe; url := map_url mapId |}.

Definition detail_call (mapId : string) : call :=
  {| from := AtDetail; url := map_url mapId |}.

(** What an existence probe makes of an answer. *)
Definition reports_existence (answer : outcome response) : bool :=
  match answer with
  | Ret r => ok r
  | Throw _ => false
  end.

(** The identifier an attempt probes, from the draw it uses. *)
Definition candidate (w : world) (maxDecimal : number) (draw : nat) : string :=
  decimalToHex
    (add (floor_mul (random_answer w draw) (add (sub maxDecimal (Int 1)) (Int 1)))
         (Int 1)).

(** The state after further calls and draws. *)
Definition advance (cs : list call) (n : nat) (st : state) : state :=
  {| randomMap := randomMap st; isLoading := isLoading st; error := error st;
     calls := calls st ++ cs; draws := draws st + n |}.

(** How an attempt ends once the detail fetch has its answer. *)
Definition settle_details (answer : outcome response) (st : state) : outcome unit * state :=
  match answer with
  | Throw e => (Throw e, st)
  | Ret resp =>
      match json resp with
      | Throw e => (Throw e, st)
      | Ret details => (Ret tt, set_randomMap details st)
      end
  end.

(** The state in which the [try] block starts. *)
Definition searching (st : state) : state :=
  set_randomMap VNull (set_error None (set_isLoading true st)).

(** What the detail fetch yields: what [fetch] or [json()] throws, or
    the parsed body. *)
Definition details_of (answer : outcome response) : outcome value :=
  match answer with
  | Throw e => Throw e
  | Ret resp => json resp
  end.

(** Every call of [misses] is a probe that reported no map, the first
    of them being call number [base]. *)
Definition all_missed (w : world) (base : nat) (misses : list call) : Prop :=
  forall i c, nth_error misses i = Some c ->
    from c = AtProbe /\ reports_existence (fetch_answer w (base + i) (url c)) = false.

(** The calls made since [st]. *)
Definition calls_since (st st' : state) : list call :=
  skipn (List.length (calls st)) (calls st').

(** Why the lookup of the latest map fails, when it does: what [fetch]
    threw, or the script's own message for a status that is not ok. *)
Definition lookup_error (answer : outcome response) : option string :=
  match answer with
  | Throw e => Some (message_of e)
  | Ret resp => if ok resp then None else Some lookup_failed
  end.

(** The three ways a search ends. *)
Inductive ending (w : world) (st st' : state) : Prop :=
| LookupFailed (e : exn) :
    fst (fetchLatestMapId w st) = Throw e ->
    calls st' = calls st ++ [latest_call] ->
    randomMap st' = VNull ->
    error st' = Some (message_of e) ->
    ending w st st'
| NothingFound (latestMapId : value) (misses : list call) :
    fst (fetchLatestMapId w st) = Ret latestMapId ->
    List.length misses = maxAttempts ->
    all_missed w (S (List.length (calls st))) misses ->
    calls st' = calls st ++ latest_call :: misses ->
    randomMap st' = VNull ->
    error st' = Some not_found ->
    ending w st st'
| Hit (latestMapId : value) (misses : list call) (id : string) :
    fst (fetchLatestMapId w st) = Ret latestMapId ->
    (List.length misses < maxAttempts)%nat ->
    all_missed w (S (List.length (calls st))) misses ->
    reports_existence
      (fetch_answer w (S (List.length (calls st)) + List.length misses) (map_url id)) = true ->
    calls st' = calls st ++ latest_call :: misses ++ [probe_call id; detail_call id] ->
    match details_of
            (fetch_answer w (S (List.length (calls st)) + S (List.length misses)) (map_url id))
    with
    | Throw e => randomMap st' = VNull /\ error st' = Some (message_of e)
    | Ret details =>
        randomMap st' = details /\
        error st' = if truthy details then None else Some not_found
    end ->
    ending w st st'.

(** Worlds to run the search in. *)

Definition respond (status_ok : bool) (body : value) : outcome response :=
  Ret {| ok := status_ok; json := Ret body |}.

Definition network_down : outcome response := Throw (ErrorObj "Failed to fetch").

Definition latest_body (id : string) : value :=
  VObject [("docs"%string, VArray [VObject [("id"%string, VString id)]])].

Definition error_body : value := VObject [("error"%string, VString "Not Found")].

Definition map_body (id : string) : value :=
  VObject [("id"%string, VString id); ("name"%string, VString "Some map")].

(** The answers come in the listed order, whatever is asked, and after
    them the network is down; so do the values of [Math.random()], and
    after them it returns 0. *)
Definition scripted (answers : list (outcome response)) (randoms : list unit_double) : world :=
  {| fetch_answer := fun n _ => nth n answers network_down;
     random_answer := fun n => nth n randoms {| mant := 0; expo := 0 |};
     type_error_message := "Cannot read properties of undefined" |}.

Definition sixteenths (m : Z) : unit_double := {| mant := m; expo := 4 |}.

(** The scenario of the specification: the latest map is [10], two misses,
    then map [a] is found. *)
Definition scenario : world :=
  scripted
    [respond true (latest_body "10"); respond false error_body; respond false error_body;
     respond true (map_body "a"); respond true (map_body "a")]
    [sixteenths 1; sixteenths 15; sixteenths 9].

Definition offline : world := scripted [] [].

(** The latest-map endpoint answers with status 500. *)
Definition server_error : world := scripted [respond false error_body] [].

(** The catalog answers, and no probed map exists. *)
Definition empty_catalog : world :=
  scripted (respond true (latest_body "10") :: repeat (respond false error_body) 10) [].

(** The probe finds map [1]; the detail fetch is then answered with an
    error status and a JSON error body. *)
Definition detail_refused : world :=
  scripted [respond true (latest_body "10"); respond true (map_body "1");
            respond false error_body] [].

(** The probe finds map [1]; the body of the detail fetch is [false]. *)
Definition detail_false : world :=
  scripted [respond true (latest_body "10"); respond true (map_body "1");
            respond true (VBool false)] [].

(** Case analysis over the 256 code units. *)
Ltac each_ascii c :=
  destruct c as [[] [] [] [] [] [] [] []].

(** Further notions for the statements on the rest of the script. *)

(** All the decimal digits of an integer, with a minus sign if negative. *)
Definition decimal (z : Z) : string := NilZero.string_of_int (Z.to_int z).

(** A number below 100 on two decimal digits. *)
Definition two_digits (r : Z) : string :=
  String (hex_char (r / 10)) (String (hex_char (r mod 10)) EmptyString).

(** The probes of [n] successive attempts, the first using draw [first]. *)
Definition probes_of (w : world) (maxDecimal : number) (first n : nat) : list call :=
  map (fun i => probe_call (candidate w maxDecimal (first + i))) (seq 0 n).

(** The lowercase form of a letter A to Z; other code units are kept. *)
Definition lower_ascii (c : ascii) : ascii :=
  let n := code c in
  if (65 <=? n) && (n <=? 90) then ascii_of_N (Z.to_N (n + 32)) else c.

Fixpoint lower_string (s : string) : string :=
  match s with
  | String c rest => String (lower_ascii c) (lower_string rest)
  | EmptyString => EmptyString
  end.

(** A value of [Math.random()] for which [getRandomNumber(1, maxId)] is
    [candidate]: the least multiple of [2^-53] that is at least
    [(candidate - 1) / maxId]. *)
Definition draw_for (maxId candidate : Z) : unit_double :=
  {| mant := ((candidate - 1) * 2 ^ 53 + maxId - 1) / maxId; expo := 53 |}.

(** The body of the latest-map answer is not JSON. *)
Definition garbled : world :=
  scripted [Ret {| ok := true; json := Throw (ErrorObj "Unexpected token <") |}] [].

(** The latest-map answer lists no map. *)
Definition no_docs : world :=
  scripted [respond true (VObject [("docs"%string, VArray [])])] [].


(* ================================================================== *)
(** ** Digits and their values *)
(* ================================================================== *)

Section Digits.

Local Open Scope string_scope.
Local Open Scope Z_scope.

Lemma digit_value_hex_char (d : Z) :
  0 <= d < 16 -> digit_value (hex_char d) = Some d.
Proof.
  intros H.
  assert (d = 0 \/ d = 1 \/ d = 2 \/ d = 3 \/ d = 4 \/ d = 5 \/ d = 6 \/ d = 7 \/
          d = 8 \/ d = 9 \/ d = 10 \/ d = 11 \/ d = 12 \/ d = 13 \/ d = 14 \/ d = 15)
    as cases by lia.
  repeat (destruct cases as [-> | cases]; [reflexivity |]).
  subst d; reflexivity.
Qed.

Lemma is_lower_hex_hex_char (d : Z) :
  0 <= d < 16 -> is_lower_hex (hex_char d) = true.
Proof.
  intros H.
  assert (d = 0 \/ d = 1 \/ d = 2 \/ d = 3 \/ d = 4 \/ d = 5 \/ d = 6 \/ d = 7 \/
          d = 8 \/ d = 9 \/ d = 10 \/ d = 11 \/ d = 12 \/ d = 13 \/ d = 14 \/ d = 15)
    as cases by lia.
  repeat (destruct cases as [-> | cases]; [reflexivity |]).
  subst d; reflexivity.
Qed.

Lemma hex_char_zero (d : Z) :
  0 <= d < 16 -> hex_char d = "0"%char -> d = 0.
Proof.
  intros H E.
  assert (digit_value (hex_char d) = Some 0) as V by (rewrite E; reflexivity).
  rewrite digit_value_hex_char in V by assumption.
  congruence.
Qed.

(** A lowercase digit is the digit of its value. *)
Lemma lower_hex_value (c : ascii) :
  is_lower_hex c = true ->
  exists d, digit_value c = Some d /\ 0 <= d < 16 /\ hex_char d = c.
Proof.
  each_ascii c; intros H; try discriminate H;
    eexists; (split; [vm_compute; reflexivity | split; [lia | reflexivity]]).
Qed.

(** No digit is white space, a sign, or the letter of the [0x] prefix. *)
Lemma digit_not_special (c : ascii) (d : Z) :
  digit_value c = Some d ->
  is_white_space c = false /\ Ascii.eqb c "-" = false /\ Ascii.eqb c "+" = false /\
  Ascii.eqb c "x" = false /\ Ascii.eqb c "X" = false.
Proof.
  each_ascii c; intros H; try discriminate H; repeat split; reflexivity.
Qed.

Lemma digit_value_range (c : ascii) (d : Z) :
  digit_value c = Some d -> 0 <= d < 16.
Proof.
  each_ascii c; intros H; vm_compute in H; try discriminate H; injection H as <-; lia.
Qed.

Lemma string_forall_app p (s t : string) :
  string_forall p (s ++ t) = string_forall p s && string_forall p t.
Proof.
  induction s as [| c s IH]; simpl; [reflexivity |].
  rewrite IH, andb_assoc; reflexivity.
Qed.

Lemma digits_value_app (s t : string) (acc : Z) :
  digits_value acc (s ++ t) = digits_value (digits_value acc s) t.
Proof.
  revert acc; induction s as [| c s IH]; intros acc; simpl; [reflexivity | apply IH].
Qed.

Lemma hex_digits_lower (len : nat) (n : Z) :
  string_forall is_lower_hex (hex_digits len n) = true.
Proof.
  revert n; induction len as [| l IH]; intros n; simpl; [reflexivity |].
  rewrite string_forall_app, IH; simpl.
  rewrite is_lower_hex_hex_char; [reflexivity | apply Z.mod_pos_bound; lia].
Qed.

(** Reading back [len] digits of [n] gives [n] modulo [16^len]. *)
Lemma digits_value_hex_digits (len : nat) (n acc : Z) :
  digits_value acc (hex_digits len n) = acc * 16 ^ Z.of_nat len + n mod 16 ^ Z.of_nat len.
Proof.
  revert n acc; induction len as [| l IH]; intros n acc.
  - simpl. rewrite Z.mod_1_r. lia.
  - cbn [hex_digits]. rewrite digits_value_app, IH. cbn [digits_value].
    rewrite digit_value_hex_char by (apply Z.mod_pos_bound; lia).
    rewrite Nat2Z.inj_succ, Z.pow_succ_r by lia.
    rewrite (Z.rem_mul_r n 16 (16 ^ Z.of_nat l)) by lia.
    lia.
Qed.

(** The digits of [n], seen from the most significant one. *)
Lemma hex_digits_head (l : nat) (n : Z) :
  hex_digits (S l) n =
  String (hex_char ((n / 16 ^ Z.of_nat l) mod 16)) (hex_digits l n).
Proof.
  revert n; induction l as [| l IH]; intros n.
  - simpl. rewrite Z.div_1_r. reflexivity.
  - change (hex_digits (S (S l)) n)
      with (hex_digits (S l) (n / 16) ++ String (hex_char (n mod 16)) EmptyString).
    rewrite IH. simpl append.
    rewrite Nat2Z.inj_succ, Z.pow_succ_r by lia.
    rewrite Z.div_div by lia.
    reflexivity.
Qed.

Lemma hex_length_bounds (n : Z) :
  0 <= n ->
  n < 16 ^ Z.of_nat (hex_length n) /\
  (0 < n -> 16 ^ Z.of_nat (hex_length n - 1) <= n).
Proof.
  intros Hn. unfold hex_length.
  rewrite Nat2Z.inj_succ, Z2Nat.id by (apply Z.div_pos; [apply Z.log2_nonneg | lia]).
  replace (S (Z.to_nat (Z.log2 n / 4)) - 1)%nat with (Z.to_nat (Z.log2 n / 4)) by lia.
  rewrite Z2Nat.id by (apply Z.div_pos; [apply Z.log2_nonneg | lia]).
  pose proof (Z.log2_nonneg n) as L0.
  pose proof (Z.div_mod (Z.log2 n) 4 ltac:(lia)) as DM.
  pose proof (Z.mod_pos_bound (Z.log2 n) 4 ltac:(lia)) as MB.
  assert (0 <= Z.log2 n / 4) as Q0 by (apply Z.div_pos; lia).
  change 16 with (2 ^ 4). rewrite <- !Z.pow_mul_r by lia.
  split.
  - destruct (Z.eq_dec n 0) as [-> | NZ].
    + simpl. lia.
    + apply Z.log2_lt_pow2; lia.
  - intros Hpos. apply Z.log2_le_pow2; lia.
Qed.

End Digits.

(* ================================================================== *)
(** ** Rounding to 53 bits *)
(* ================================================================== *)

Section Rounding.

Local Open Scope Z_scope.

Lemma round_nat_small (p : Z) : p < 2 ^ 53 -> round_nat p = p.
Proof.
  intros H. unfold round_nat.
  destruct (Z.ltb_spec p (2 ^ 53)); [reflexivity | lia].
Qed.

Lemma below_multiple (u q r x : Z) :
  0 < x -> u * x <= q * x + r -> r < x -> u * x <= q * x.
Proof. intros. assert (u <= q) by nia. nia. Qed.

Lemma above_multiple (u q r x : Z) :
  0 < x -> q * x + r <= u * x -> 0 < r -> (q + 1) * x <= u * x.
Proof. intros. assert (q + 1 <= u) by nia. nia. Qed.

(** How [round_nat] acts on [q * 2^s + rest] with a 53-bit [q]. *)
Lemma round_nat_at (s q rest : Z) :
  1 <= s -> 2 ^ 52 <= q < 2 ^ 53 -> 0 <= rest < 2 ^ s ->
  round_nat (q * 2 ^ s + rest) =
  if (2 ^ (s - 1) <? rest) || ((rest =? 2 ^ (s - 1)) && Z.odd q)
  then (q + 1) * 2 ^ s else q * 2 ^ s.
Proof.
  intros Hs Hq Hr.
  assert (0 < 2 ^ s) as Ps by (apply Z.pow_pos_nonneg; lia).
  assert (2 <= 2 ^ s) as P2.
  { change 2 with (2 ^ 1) at 1. apply Z.pow_le_mono_r; lia. }
  pose proof (Z.mul_le_mono_nonneg_r _ _ (2 ^ s) ltac:(lia) (proj1 Hq)) as Lo.
  pose proof (Z.mul_le_mono_nonneg_r (q + 1) (2 ^ 53) (2 ^ s) ltac:(lia) ltac:(lia)) as Hi.
  assert (Z.log2 (q * 2 ^ s + rest) = 52 + s) as L.
  { apply Z.log2_unique; [lia |].
    replace (Z.succ (52 + s)) with (53 + s) by lia.
    rewrite !Z.pow_add_r by lia. lia. }
  unfold round_nat.
  destruct (Z.ltb_spec (q * 2 ^ s + rest) (2 ^ 53)) as [Small | _]; [lia |].
  rewrite L. replace (52 + s - 52) with s by lia.
  assert ((q * 2 ^ s + rest) / 2 ^ s = q) as Dq.
  { symmetry. apply (Z.div_unique_pos _ _ q rest); lia. }
  assert ((q * 2 ^ s + rest) mod 2 ^ s = rest) as Mq.
  { symmetry. apply (Z.mod_unique_pos _ _ q rest); lia. }
  rewrite Dq, Mq. reflexivity.
Qed.

(** Every natural number from [2^53] on has that shape. *)
Lemma round_nat_shape (p : Z) :
  2 ^ 53 <= p ->
  exists s q rest,
    s = Z.log2 p - 52 /\ 1 <= s /\ 2 ^ 52 <= q < 2 ^ 53 /\
    0 <= rest < 2 ^ s /\ p = q * 2 ^ s + rest.
Proof.
  intros Hp.
  assert (0 < p) as Pp by lia.
  assert (53 <= Z.log2 p) as L53 by (apply Z.log2_le_pow2; lia).
  destruct (Z.log2_spec p Pp) as [Lo Hi].
  set (s := Z.log2 p - 52) in *.
  assert (0 < 2 ^ s) as Ps by (apply Z.pow_pos_nonneg; lia).
  exists s, (p / 2 ^ s), (p mod 2 ^ s).
  assert (Z.log2 p = 52 + s) as E by lia.
  rewrite E in Lo, Hi.
  replace (Z.succ (52 + s)) with (53 + s) in Hi by lia.
  rewrite Z.pow_add_r in Lo, Hi by lia.
  pose proof (Z.div_mod p (2 ^ s) ltac:(lia)) as DM.
  pose proof (Z.mod_pos_bound p (2 ^ s) Ps) as MB.
  repeat split; try lia.
  - apply Z.div_le_lower_bound; lia.
  - apply Z.div_lt_upper_bound; lia.
Qed.

Lemma half_double (s : Z) : 1 <= s -> 2 * 2 ^ (s - 1) = 2 ^ s.
Proof.
  intros Hs. rewrite <- Z.pow_succ_r by lia. f_equal. lia.
Qed.

(** The result is one of the two neighbours, the nearer one. *)
Lemma round_nat_neighbours (s q rest : Z) :
  1 <= s -> 2 ^ 52 <= q < 2 ^ 53 -> 0 <= rest < 2 ^ s ->
  (round_nat (q * 2 ^ s + rest) = q * 2 ^ s /\ 2 * rest <= 2 ^ s /\
   (rest <> 0 -> 2 * rest = 2 ^ s -> Z.odd q = false)) \/
  (round_nat (q * 2 ^ s + rest) = (q + 1) * 2 ^ s /\ 2 ^ s <= 2 * rest /\
   (2 * rest = 2 ^ s -> Z.odd q = true)).
Proof.
  intros Hs Hq Hr.
  rewrite round_nat_at by assumption.
  pose proof (half_double s Hs) as HD.
  destruct (Z.ltb_spec (2 ^ (s - 1)) rest) as [Above | NotAbove]; cbn [orb andb].
  - right. repeat split; lia.
  - destruct (Z.eqb_spec rest (2 ^ (s - 1))) as [Tie | NoTie]; cbn [orb andb].
    + destruct (Z.odd q) eqn:Odd.
      * right. repeat split; (lia || reflexivity).
      * left. repeat split; (lia || reflexivity).
    + left. repeat split; lia.
Qed.

Lemma round_nat_nonneg (p : Z) : 0 <= p -> 0 <= round_nat p.
Proof.
  intros Hp.
  destruct (Z.lt_ge_cases p (2 ^ 53)) as [Small | Big].
  - rewrite round_nat_small; assumption.
  - destruct (round_nat_shape p Big) as (s & q & rest & _ & Hs & Hq & Hr & ->).
    assert (0 < 2 ^ s) as Ps by (apply Z.pow_pos_nonneg; lia).
    assert (0 <= q * 2 ^ s) by (apply Z.mul_nonneg_nonneg; lia).
    destruct (round_nat_neighbours s q rest Hs Hq Hr) as [(-> & _) | (-> & _)]; lia.
Qed.

(** A fixed point of the rounding, from [2^53] on, has no low bits. *)
Lemma fixed_point_shape (y : Z) :
  2 ^ 53 <= y -> round_nat y = y ->
  exists s q, s = Z.log2 y - 52 /\ 1 <= s /\ 2 ^ 52 <= q < 2 ^ 53 /\ y = q * 2 ^ s.
Proof.
  intros Big Fix.
  destruct (round_nat_shape y Big) as (s & q & rest & Es & Hs & Hq & Hr & E).
  exists s, q. repeat split; try lia.
  rewrite E in Fix.
  destruct (round_nat_neighbours s q rest Hs Hq Hr) as [(R & _) | (R & _)];
    rewrite R in Fix; lia.
Qed.

(** Rounding never passes a double: from below ... *)
Lemma round_nat_le (p y : Z) :
  0 <= p <= y -> round_nat y = y -> round_nat p <= y.
Proof.
  intros [P0 Le] Fix.
  destruct (Z.lt_ge_cases p (2 ^ 53)) as [Small | Big].
  { rewrite round_nat_small; assumption. }
  destruct (round_nat_shape p Big) as (s & q & rest & Es & Hs & Hq & Hr & E).
  destruct (fixed_point_shape y ltac:(lia) Fix) as (t & u & Et & Ht & Hu & Ey).
  assert (s <= t) as ST.
  { rewrite Es, Et. pose proof (Z.log2_le_mono p y Le). lia. }
  assert (0 < 2 ^ s) as Ps by (apply Z.pow_pos_nonneg; lia).
  assert (2 ^ t = 2 ^ (t - s) * 2 ^ s) as Split.
  { rewrite <- Z.pow_add_r by lia. f_equal. lia. }
  rewrite E.
  destruct (round_nat_neighbours s q rest Hs Hq Hr) as [(-> & _) | (-> & Up & _)].
  - lia.
  - rewrite Ey, Split, Z.mul_assoc.
    apply above_multiple with rest; [assumption | | lia].
    rewrite <- Z.mul_assoc, <- Split. lia.
Qed.

(** ... and from above. *)
Lemma round_nat_ge (p y : Z) :
  0 <= y <= p -> round_nat y = y -> y <= round_nat p.
Proof.
  intros [Y0 Le] Fix.
  destruct (Z.lt_ge_cases p (2 ^ 53)) as [Small | Big].
  { rewrite round_nat_small; assumption. }
  destruct (round_nat_shape p Big) as (s & q & rest & Es & Hs & Hq & Hr & E).
  assert (0 < 2 ^ s) as Ps by (apply Z.pow_pos_nonneg; lia).
  assert (2 <= 2 ^ s) as P2.
  { change 2 with (2 ^ 1) at 1. apply Z.pow_le_mono_r; lia. }
  pose proof (Z.mul_le_mono_nonneg_r _ _ (2 ^ s) ltac:(lia) (proj1 Hq)) as Lo.
  assert (q * 2 ^ s <= round_nat p) as Low.
  { rewrite E.
    destruct (round_nat_neighbours s q rest Hs Hq Hr) as [(-> & _) | (-> & _)]; lia. }
  apply Z.le_trans with (q * 2 ^ s); [| exact Low].
  destruct (Z.lt_ge_cases y (2 ^ 53)) as [SmallY | BigY].
  { pose proof (Z.mul_le_mono_nonneg_l _ _ (2 ^ 52) ltac:(lia) P2). lia. }
  destruct (fixed_point_shape y BigY Fix) as (t & u & Et & Ht & Hu & Ey).
  assert (t <= s) as TS.
  { rewrite Es, Et. pose proof (Z.log2_le_mono y p Le). lia. }
  destruct (Z.eq_dec t s) as [Same | Less].
  - rewrite Same in Ey. rewrite Ey.
    apply below_multiple with rest; lia.
  - assert (2 ^ t <= 2 ^ (s - 1)) as Pd by (apply Z.pow_le_mono_r; lia).
    pose proof (half_double s Hs) as HD.
    assert (0 < 2 ^ t) as Pt by (apply Z.pow_pos_nonneg; lia).
    assert (u * 2 ^ t <= 2 ^ 53 * 2 ^ t) by (apply Z.mul_le_mono_nonneg_r; lia).
    assert (2 ^ 53 * 2 ^ t <= 2 ^ 53 * 2 ^ (s - 1)) by (apply Z.mul_le_mono_nonneg_l; lia).
    lia.
Qed.

Lemma round_nat_exact (s q : Z) :
  0 <= s -> 0 <= q <= 2 ^ 53 -> round_nat (q * 2 ^ s) = q * 2 ^ s.
Proof.
  intros Hs Hq.
  assert (0 < 2 ^ s) as Ps by (apply Z.pow_pos_nonneg; lia).
  destruct (Z.lt_ge_cases (q * 2 ^ s) (2 ^ 53)) as [Small | Big].
  { apply round_nat_small; assumption. }
  destruct (Z.eq_dec q (2 ^ 53)) as [-> | Below].
  - (* the carry: 2^53 * 2^s = 2^52 * 2^(s+1) *)
    replace (2 ^ 53 * 2 ^ s) with (2 ^ 52 * 2 ^ (s + 1) + 0)
      by (rewrite Z.pow_add_r by lia; lia).
    rewrite round_nat_at
      by first [lia | split; [lia | apply Z.pow_pos_nonneg; lia]].
    replace (s + 1 - 1) with s by lia.
    destruct (Z.ltb_spec (2 ^ s) 0); [lia |].
    destruct (Z.eqb_spec 0 (2 ^ s)); [lia |].
    cbn [orb andb]. lia.
  - destruct (Z.lt_ge_cases q (2 ^ 52)) as [Low | High].
    + (* fewer than 53 bits in q: renormalise through the shape lemma *)
      destruct (round_nat_shape _ Big) as (t & u & rest & Et & Ht & Hu & Hr & E).
      assert (0 < 2 ^ t) as Pt by (apply Z.pow_pos_nonneg; lia).
      destruct (Z.le_gt_cases t s) as [TS | ST].
      * assert (2 ^ s = 2 ^ (s - t) * 2 ^ t) as Split.
        { rewrite <- Z.pow_add_r by lia. f_equal. lia. }
        assert (rest = 0) as R0.
        { rewrite Split, Z.mul_assoc in E.
          assert (rest = (q * 2 ^ (s - t) - u) * 2 ^ t) as ER by lia.
          assert (q * 2 ^ (s - t) - u = 0) by nia.
          nia. }
        rewrite E, R0, round_nat_at by lia.
        assert (0 < 2 ^ (t - 1)) by (apply Z.pow_pos_nonneg; lia).
        destruct (Z.ltb_spec (2 ^ (t - 1)) 0); [lia |].
        destruct (Z.eqb_spec 0 (2 ^ (t - 1))); [lia |].
        cbn [orb andb]. lia.
      * (* t > s is impossible: q * 2^s < 2^52 * 2^s <= 2^52 * 2^t <= u * 2^t *)
        exfalso.
        assert (2 ^ s <= 2 ^ t) by (apply Z.pow_le_mono_r; lia).
        assert (q * 2 ^ s < 2 ^ 52 * 2 ^ s) by (apply Z.mul_lt_mono_pos_r; lia).
        assert (2 ^ 52 * 2 ^ s <= 2 ^ 52 * 2 ^ t) by (apply Z.mul_le_mono_nonneg_l; lia).
        assert (2 ^ 52 * 2 ^ t <= u * 2 ^ t) by (apply Z.mul_le_mono_nonneg_r; lia).
        lia.
    + destruct (Z.eq_dec s 0) as [-> | Pos].
      { rewrite Z.pow_0_r, Z.mul_1_r in *. lia. }
      replace (q * 2 ^ s) with (q * 2 ^ s + 0) by lia.
      rewrite round_nat_at by lia.
      assert (0 < 2 ^ (s - 1)) by (apply Z.pow_pos_nonneg; lia).
      destruct (Z.ltb_spec (2 ^ (s - 1)) 0); [lia |].
      destruct (Z.eqb_spec 0 (2 ^ (s - 1))); [lia |].
      cbn [orb andb]. lia.
Qed.

(** What comes out of the rounding is a fixed point of it. *)
Lemma round_nat_idem (p : Z) : 0 <= p -> round_nat (round_nat p) = round_nat p.
Proof.
  intros Hp.
  destruct (Z.lt_ge_cases p (2 ^ 53)) as [Small | Big].
  { rewrite (round_nat_small p Small). apply round_nat_small; assumption. }
  destruct (round_nat_shape p Big) as (s & q & rest & _ & Hs & Hq & Hr & ->).
  destruct (round_nat_neighbours s q rest Hs Hq Hr) as [(-> & _) | (-> & _)];
    apply round_nat_exact; lia.
Qed.

(** The rounding moves a number by at most half a unit in the last place. *)
Lemma round_nat_upper (p : Z) :
  2 ^ 53 <= p -> round_nat p <= p + 2 ^ (Z.log2 p - 53).
Proof.
  intros Big.
  destruct (round_nat_shape p Big) as (s & q & rest & Es & Hs & Hq & Hr & E).
  replace (Z.log2 p - 53) with (s - 1) by lia.
  pose proof (half_double s Hs) as HD.
  rewrite E at 1 2.
  destruct (round_nat_neighbours s q rest Hs Hq Hr) as [(-> & _) | (-> & Up & _)]; lia.
Qed.


(** Where [n - 1] rounds up to the double [n], [n + 1] rounds down to it. *)
Lemma round_nat_succ_of_pred (n : Z) :
  1 <= n -> round_nat (n - 1) = n -> round_nat (n + 1) = n.
Proof.
  intros Hn Up.
  destruct (Z.lt_ge_cases (n - 1) (2 ^ 53)) as [Small | Big].
  { rewrite round_nat_small in Up by assumption. lia. }
  destruct (round_nat_shape _ Big) as (s & q & rest & _ & Hs & Hq & Hr & E).
  assert (0 < 2 ^ s) as Ps by (apply Z.pow_pos_nonneg; lia).
  pose proof (half_double s Hs) as HD.
  assert (1 <= 2 ^ (s - 1)) as H1.
  { assert (0 < 2 ^ (s - 1)) by (apply Z.pow_pos_nonneg; lia). lia. }
  rewrite E in Up.
  destruct (round_nat_neighbours s q rest Hs Hq Hr) as [(R & _) | (R & Near & Tie)];
    rewrite R in Up; [lia |].
  assert (rest = 2 ^ s - 1) as Er by lia.
  destruct (Z.eq_dec (q + 1) (2 ^ 53)) as [Carry | NoCarry].
  - replace (n + 1) with (2 ^ 52 * 2 ^ (s + 1) + 1)
      by (rewrite Z.pow_add_r by lia; lia).
    assert (2 <= 2 ^ s) by lia.
    rewrite round_nat_at
      by first [lia | split; [lia | rewrite Z.pow_add_r by lia; lia]].
    replace (s + 1 - 1) with s by lia.
    destruct (Z.ltb_spec (2 ^ s) 1); [lia |].
    destruct (Z.eqb_spec 1 (2 ^ s)); [lia |].
    cbn [orb andb]. rewrite Z.pow_add_r by lia. lia.
  - replace (n + 1) with ((q + 1) * 2 ^ s + 1) by lia.
    rewrite round_nat_at by lia.
    destruct (Z.ltb_spec (2 ^ (s - 1)) 1); [lia |].
    destruct (Z.eqb_spec 1 (2 ^ (s - 1))) as [One | More]; cbn [orb andb]; [| lia].
    replace (q + 1) with (Z.succ q) by lia.
    rewrite Z.odd_succ, <- Z.negb_odd, Tie by lia.
    cbn [negb]. lia.
Qed.

(** The width of the sampling interval, [max - 1 + 1] as the script
    computes it, stays between 1 and [max]. *)
Lemma interval_width (n : Z) :
  1 <= n -> round_nat n = n ->
  1 <= round_nat (round_nat (n - 1) + 1) <= n.
Proof.
  intros Hn Fix.
  assert (0 <= round_nat (n - 1) <= n) as [A0 An].
  { split; [apply round_nat_nonneg; lia | apply round_nat_le; [lia | assumption]]. }
  split.
  - apply round_nat_ge; [lia | reflexivity].
  - destruct (Z.eq_dec (round_nat (n - 1)) n) as [Up | NotUp].
    + rewrite Up, (round_nat_succ_of_pred n Hn Up). lia.
    + apply round_nat_le; [lia | assumption].
Qed.

(** The rounded product of a double below 1 and a positive integer stays
    below that integer. *)
Lemma product_below (m k size : Z) :
  0 <= m < 2 ^ 53 -> 0 <= k -> m < 2 ^ k -> 1 <= size ->
  0 <= round_nat (m * size) / 2 ^ k < size.
Proof.
  intros Hm Hk Hmk Hsize.
  assert (0 < 2 ^ k) as Pk by (apply Z.pow_pos_nonneg; lia).
  assert (0 <= m * size) as P0 by (apply Z.mul_nonneg_nonneg; lia).
  assert (m * size <= (2 ^ k - 1) * size) as Pmax
    by (apply Z.mul_le_mono_nonneg_r; lia).
  split.
  - apply Z.div_pos; [apply round_nat_nonneg; assumption | assumption].
  - apply Z.div_lt_upper_bound; [assumption |].
    destruct (Z.lt_ge_cases (m * size) (2 ^ 53)) as [Small | Big].
    + rewrite round_nat_small by assumption. lia.
    + pose proof (round_nat_upper _ Big) as Upper.
      assert (2 ^ (Z.log2 (m * size) - 53) < size).
      { assert (53 <= Z.log2 (m * size)) as L53 by (apply Z.log2_le_pow2; lia).
        destruct (Z.log2_spec (m * size) ltac:(lia)) as [Lo _].
        replace (Z.log2 (m * size)) with (53 + (Z.log2 (m * size) - 53)) in Lo at 1 by lia.
        rewrite Z.pow_add_r in Lo by lia.
        assert (m * size < 2 ^ 53 * size) by (apply Z.mul_lt_mono_pos_r; lia).
        assert (0 < 2 ^ (Z.log2 (m * size) - 53)) by (apply Z.pow_pos_nonneg; lia).
        nia. }
      lia.
Qed.

End Rounding.

(* ================================================================== *)
(** ** Sampling *)
(* ================================================================== *)

Section Sampling.

Lemma round_of_nonneg (z : Z) : 0 <= z -> round z = round_nat z.
Proof.
  intros H. unfold round. destruct (Z.ltb_spec z 0); [lia | reflexivity].
Qed.

Lemma of_Z_finite (z : Z) :
  0 <= z -> round_nat z < 2 ^ 1024 -> of_Z z = Int (round_nat z).
Proof.
  intros H Fin. unfold of_Z. rewrite round_of_nonneg by assumption.
  pose proof (round_nat_nonneg z H).
  rewrite Z.abs_eq by assumption.
  destruct (Z.leb_spec (2 ^ 1024) (round_nat z)); [lia | reflexivity].
Qed.

Lemma representable_fixed (n : Z) : 0 <= n -> representable n -> round_nat n = n.
Proof.
  intros H [R _]. rewrite round_of_nonneg in R; assumption.
Qed.

Variable w : world.

(** C8.  Sampling stays in range: for a positive integer [maxId] (an
    integer-valued double) and whatever [Math.random()] returns,
    [getRandomNumber(1, maxId)] is an integer between 1 and [maxId]. *)
Theorem getRandomNumber_in_range (st : state) (maxId : Z) :
  1 <= maxId -> representable maxId -> unit_ok (random_answer w (draws st)) ->
  exists candidate,
    fst (getRandomNumber w (Int 1) (Int maxId) st) = Ret (Int candidate) /\
    1 <= candidate <= maxId.
Proof.
  intros Hmax Rep (Hm & Hk & Hmk).
  pose proof (representable_fixed maxId ltac:(lia) Rep) as Fix.
  destruct Rep as [_ Fin]. rewrite Z.abs_eq in Fin by lia.
  pose proof (interval_width maxId Hmax Fix) as [W1 Wn].
  set (r := random_answer w (draws st)) in *.
  set (width := round_nat (round_nat (maxId - 1) + 1)) in *.
  assert (0 <= round_nat (maxId - 1) <= maxId) as [A0 An].
  { split; [apply round_nat_nonneg; lia | apply round_nat_le; [lia | assumption]]. }
  pose proof (product_below (mant r) (expo r) width Hm (proj1 Hk) Hmk W1) as [F0 Fw].
  assert (round_nat width = width) as WFix by (apply round_nat_idem; lia).
  assert (1 <= round_nat (round_nat (mant r * width) / 2 ^ expo r + 1) <= width)
    as [C1 Cw].
  { split; [apply round_nat_ge; [lia | reflexivity] | apply round_nat_le; [lia | assumption]]. }
  exists (round_nat (round_nat (mant r * width) / 2 ^ expo r + 1)).
  split; [| lia].
  unfold getRandomNumber, random, bind, ret. cbn [fst]. fold r.
  f_equal.
  unfold sub. cbn [neg add].
  replace (maxId + - (1)) with (maxId - 1) by lia.
  rewrite (of_Z_finite (maxId - 1)) by lia.
  cbn [add]. rewrite (of_Z_finite (round_nat (maxId - 1) + 1)) by (fold width; lia).
  fold width. cbn [floor_mul add].
  rewrite (round_of_nonneg (mant r * width)) by (apply Z.mul_nonneg_nonneg; lia).
  apply of_Z_finite; lia.
Qed.

End Sampling.

Lemma getRandomNumber_in_range_witness :
  exists candidate,
    fst (getRandomNumber scenario (Int 1) (Int 16) initial) = Ret (Int candidate) /\
    1 <= candidate <= 16.
Proof.
  apply getRandomNumber_in_range.
  - lia.
  - split; [reflexivity | vm_compute; reflexivity].
  - unfold unit_ok; cbn; lia.
Defined.

(* ================================================================== *)
(** ** Hexadecimal conversions *)
(* ================================================================== *)

Section Conversions.

Local Open Scope string_scope.
Local Open Scope Z_scope.

Lemma padStart_one (s : string) : s <> "" -> padStart s 1 "0" = s.
Proof.
  intros H. destruct s as [| c s]; [congruence | reflexivity].
Qed.

Lemma hex_digits_nonempty (l : nat) (n : Z) : hex_digits (S l) n <> "".
Proof.
  rewrite hex_digits_head. discriminate.
Qed.

Lemma decimalToHex_nat (z : Z) :
  0 <= z -> decimalToHex (Int z) = hex_digits (hex_length z) z.
Proof.
  intros H. unfold decimalToHex, toString16.
  destruct (Z.ltb_spec z 0); [lia |].
  apply padStart_one, hex_digits_nonempty.
Qed.

Lemma digit_prefix_lower (s : string) :
  string_forall is_lower_hex s = true -> digit_prefix s = s.
Proof.
  induction s as [| c s IH]; simpl; [reflexivity |].
  intros H. apply andb_prop in H as [Hc Hs].
  destruct (lower_hex_value c Hc) as (d & -> & _).
  rewrite IH by assumption. reflexivity.
Qed.

(** On a non-empty run of lowercase digits [parseInt] has nothing to skip. *)
Lemma parseInt16_lower (s : string) :
  s <> "" -> string_forall is_lower_hex s = true ->
  parseInt16 s = of_Z (digits_value 0 s).
Proof.
  intros NE All.
  destruct s as [| c rest]; [congruence |].
  pose proof All as All'.
  cbn [string_forall] in All'. apply andb_prop in All' as [Hc Hrest].
  destruct (lower_hex_value c Hc) as (d & Vc & _).
  destruct (digit_not_special c d Vc) as (Ws & Minus & Plus & _).
  unfold parseInt16. cbn [trim_start]. rewrite Ws.
  cbn [strip_sign]. rewrite Minus, Plus.
  assert (strip_prefix (String c rest) = String c rest) as ->.
  { destruct rest as [| x rest']; [reflexivity |].
    cbn [string_forall] in Hrest. apply andb_prop in Hrest as [Hx _].
    destruct (lower_hex_value x Hx) as (dx & Vx & _).
    destruct (digit_not_special x dx Vx) as (_ & _ & _ & Lx & Ux).
    cbn [strip_prefix]. rewrite Lx, Ux, andb_false_r. reflexivity. }
  rewrite digit_prefix_lower by assumption.
  reflexivity.
Qed.

(** The value of a string of digits: the accumulator shifted, plus the
    value of the digits alone, which fits their number. *)
Lemma digits_value_shift (s : string) (acc : Z) :
  digits_value acc s = acc * 16 ^ Z.of_nat (String.length s) + digits_value 0 s /\
  0 <= digits_value 0 s < 16 ^ Z.of_nat (String.length s).
Proof.
  revert acc; induction s as [| c s IH]; intros acc.
  - cbn. lia.
  - cbn [digits_value String.length].
    rewrite Nat2Z.inj_succ, Z.pow_succ_r by lia.
    set (d := match digit_value c with Some d => d | None => 0 end).
    assert (0 <= d < 16) as Hd.
    { subst d. destruct (digit_value c) as [d |] eqn:V; [| lia].
      apply (digit_value_range c d V). }
    destruct (IH (16 * acc + d)) as [E1 B]. destruct (IH (16 * 0 + d)) as [E0 _].
    assert (0 < 16 ^ Z.of_nat (String.length s)) by (apply Z.pow_pos_nonneg; lia).
    rewrite E1, E0. split; nia.
Qed.

(** Writing the value of lowercase digits on as many digits gives them back. *)
Lemma hex_digits_of_value (s : string) (acc : Z) :
  string_forall is_lower_hex s = true ->
  hex_digits (String.length s) (digits_value acc s) = s.
Proof.
  revert acc; induction s as [| c s IH]; intros acc All; [reflexivity |].
  cbn [string_forall] in All. apply andb_prop in All as [Hc Hs].
  destruct (lower_hex_value c Hc) as (d & Vc & Hd & Back).
  cbn [String.length digits_value]. rewrite Vc.
  rewrite hex_digits_head, IH by assumption.
  destruct (digits_value_shift s (16 * acc + d)) as [E B].
  assert (digits_value (16 * acc + d) s / 16 ^ Z.of_nat (String.length s) = 16 * acc + d) as ->.
  { symmetry. apply (Z.div_unique_pos _ _ _ (digits_value 0 s)); lia. }
  assert ((16 * acc + d) mod 16 = d) as ->.
  { symmetry. apply (Z.mod_unique_pos _ _ acc); lia. }
  rewrite Back. reflexivity.
Qed.

Lemma hex_length_unique (v : Z) (l : nat) :
  16 ^ Z.of_nat l <= v < 16 ^ Z.of_nat (S l) -> hex_length v = S l.
Proof.
  intros [Lo Hi]. unfold hex_length. f_equal.
  assert (0 < v) as Pv.
  { assert (0 < 16 ^ Z.of_nat l) by (apply Z.pow_pos_nonneg; lia). lia. }
  rewrite Nat2Z.inj_succ in Hi.
  change 16 with (2 ^ 4) in Lo, Hi. rewrite <- Z.pow_mul_r in Lo, Hi by lia.
  apply Z.log2_le_pow2 in Lo; [| assumption].
  apply Z.log2_lt_pow2 in Hi; [| assumption].
  assert (Z.log2 v / 4 = Z.of_nat l) as ->.
  { symmetry. apply (Z.div_unique_pos _ _ _ (Z.log2 v - 4 * Z.of_nat l)); lia. }
  apply Nat2Z.id.
Qed.

Lemma canonical_hex_length (s : string) :
  canonical_hex s = true -> hex_length (digits_value 0 s) = String.length s.
Proof.
  destruct s as [| c rest]; [discriminate |].
  unfold canonical_hex. intros H. apply andb_prop in H as [All Lead].
  pose proof All as All'. cbn [string_forall] in All'.
  apply andb_prop in All' as [Hc Hrest].
  destruct (lower_hex_value c Hc) as (d & Vc & Hd & Back).
  apply orb_prop in Lead as [NotZero | Alone].
  - cbn [String.length digits_value]. rewrite Vc.
    assert (d <> 0) as Dpos.
    { intros ->. rewrite <- Back in NotZero. discriminate NotZero. }
    destruct (digits_value_shift rest (16 * 0 + d)) as [E B].
    assert (0 < 16 ^ Z.of_nat (String.length rest)) by (apply Z.pow_pos_nonneg; lia).
    apply hex_length_unique.
    rewrite Nat2Z.inj_succ, Z.pow_succ_r by lia. rewrite E. nia.
  - apply String.eqb_eq in Alone. subst rest.
    cbn [String.length digits_value]. rewrite Vc.
    assert (d = 0 \/ 16 ^ Z.of_nat 0 <= 16 * 0 + d < 16 ^ Z.of_nat 1) as [-> | Range]
      by (cbn; lia).
    + reflexivity.
    + apply hex_length_unique. exact Range.
Qed.

(** Integers up to [2^53] are doubles. *)
Lemma round_nat_safe (v : Z) : v <= 2 ^ 53 -> round_nat v = v.
Proof.
  intros H. destruct (Z.eq_dec v (2 ^ 53)) as [-> | Ne].
  - reflexivity.
  - apply round_nat_small. lia.
Qed.

(** The round trip from an integer-valued double through its digits. *)
Lemma hexToDecimal_decimalToHex (n : Z) :
  0 <= n -> round_nat n = n -> n < 2 ^ 1024 ->
  hexToDecimal (VString (decimalToHex (Int n))) = Int n.
Proof.
  intros Hn Fix Fin. unfold hexToDecimal. cbn [to_string].
  rewrite decimalToHex_nat by assumption.
  rewrite parseInt16_lower
    by (unfold hex_length; first [apply hex_digits_nonempty | apply hex_digits_lower]).
  rewrite digits_value_hex_digits.
  destruct (hex_length_bounds n Hn) as [Below _].
  rewrite Z.mod_small, Z.mul_0_l, Z.add_0_l by lia.
  rewrite of_Z_finite by (rewrite ?Fix; lia).
  rewrite Fix. reflexivity.
Qed.

(** C6.  For every integer [n] from 1 to 0xFFFFFF,
    [hexToDecimal(decimalToHex(n)) == n]. *)
Theorem hex_round_trip (n : Z) :
  1 <= n <= 16777215 ->
  hexToDecimal (VString (decimalToHex (Int n))) = Int n.
Proof.
  intros [Lo Hi].
  apply hexToDecimal_decimalToHex; [lia | apply round_nat_small; lia | lia].
Qed.

(** C7.  For every positive integer, [decimalToHex] returns a non-empty
    string of lowercase radix-16 digits that does not start with a zero
    unless it is the single digit; 1 gives "1" and 255 gives "ff". *)
Theorem decimalToHex_canonical (z : Z) :
  0 < z ->
  canonical_hex (decimalToHex (Int z)) = true /\
  decimalToHex (Int 1) = "1" /\ decimalToHex (Int 255) = "ff".
Proof.
  intros Pz. split; [| split; reflexivity].
  rewrite decimalToHex_nat by lia.
  destruct (hex_length_bounds z ltac:(lia)) as [Below Above].
  specialize (Above Pz).
  pose proof (hex_digits_lower (hex_length z) z) as All.
  unfold hex_length in *. set (k := Z.to_nat (Z.log2 z / 4)) in *.
  replace (S k - 1)%nat with k in Above by lia.
  rewrite Nat2Z.inj_succ, Z.pow_succ_r in Below by lia.
  rewrite hex_digits_head in *.
  unfold canonical_hex. rewrite All. cbn [andb].
  assert (0 < 16 ^ Z.of_nat k) as Pk by (apply Z.pow_pos_nonneg; lia).
  assert (1 <= z / 16 ^ Z.of_nat k < 16) as Lead.
  { split; [apply Z.div_le_lower_bound; lia | apply Z.div_lt_upper_bound; lia]. }
  rewrite Z.mod_small by lia.
  destruct (Ascii.eqb_spec (hex_char (z / 16 ^ Z.of_nat k)) "0") as [Zero | NonZero];
    [| reflexivity].
  apply hex_char_zero in Zero; lia.
Qed.

(** C10, amended.  For every canonical lowercase string whose value is at
    most [2^53], [decimalToHex(hexToDecimal(s)) == s]. *)
Theorem decimalToHex_hexToDecimal (s : string) :
  canonical_hex s = true -> digits_value 0 s <= 2 ^ 53 ->
  decimalToHex (hexToDecimal (VString s)) = s.
Proof.
  intros Canon Safe.
  pose proof (canonical_hex_length s Canon) as Len.
  destruct s as [| c rest] eqn:Es; [discriminate |]. rewrite <- Es in *.
  assert (string_forall is_lower_hex s = true) as All.
  { rewrite Es in *. unfold canonical_hex in Canon.
    apply andb_prop in Canon as [All _]. exact All. }
  destruct (digits_value_shift s 0) as [_ [V0 _]].
  unfold hexToDecimal. cbn [to_string].
  rewrite parseInt16_lower by (rewrite ?Es; congruence || assumption).
  pose proof (round_nat_safe _ Safe) as Fix.
  rewrite of_Z_finite by (rewrite ?Fix; lia).
  rewrite Fix, decimalToHex_nat, Len by lia.
  apply hex_digits_of_value; assumption.
Qed.

End Conversions.

Lemma hex_round_trip_witness :
  hexToDecimal (VString (decimalToHex (Int 255))) = Int 255.
Proof. apply hex_round_trip. lia. Defined.

Lemma decimalToHex_canonical_witness :
  canonical_hex (decimalToHex (Int 4096)) = true /\
  decimalToHex (Int 1) = "1"%string /\ decimalToHex (Int 255) = "ff"%string.
Proof. apply decimalToHex_canonical. lia. Defined.

Lemma decimalToHex_hexToDecimal_witness :
  decimalToHex (hexToDecimal (VString "1f40a"%string)) = "1f40a"%string.
Proof.
  apply decimalToHex_hexToDecimal; [reflexivity | vm_compute; discriminate].
Defined.

(** C10 as first stated fails past [2^53]: the value of this string is
    [2^53 + 1], which [parseInt] rounds to [2^53]. *)
Lemma long_string_not_restored :
  canonical_hex "20000000000001" = true /\
  decimalToHex (hexToDecimal (VString "20000000000001")) <> "20000000000001"%string.
Proof.
  split; [reflexivity | vm_compute; discriminate].
Qed.

(* ================================================================== *)
(** ** The search *)
(* ================================================================== *)

Section Loop.

Variable w : world.

Lemma getRandomNumber_run (maxDecimal : number) (st : state) :
  getRandomNumber w (Int 1) maxDecimal st =
  (Ret (add (floor_mul (random_answer w (draws st)) (add (sub maxDecimal (Int 1)) (Int 1)))
            (Int 1)),
   record_draw st).
Proof. reflexivity. Qed.

(** [checkMapExists] returns what the answer reports, and never throws. *)
Lemma checkMapExists_run (mapId : string) (st : state) :
  checkMapExists w mapId st =
  (Ret (reports_existence (fetch_answer w (List.length (calls st)) (map_url mapId))),
   record_call (probe_call mapId) st).
Proof.
  unfold checkMapExists, try_catch, bind, fetch, ret, reports_existence.
  destruct (fetch_answer w (List.length (calls st)) (map_url mapId)); reflexivity.
Qed.

Lemma attempt_miss (fewer : nat) (maxDecimal : number) (st : state) :
  reports_existence
    (fetch_answer w (List.length (calls st))
       (map_url (candidate w maxDecimal (draws st)))) = false ->
  attempt_loop w (S fewer) maxDecimal st =
  attempt_loop w fewer maxDecimal
    (record_call (probe_call (candidate w maxDecimal (draws st))) (record_draw st)).
Proof.
  intros Miss. cbn [attempt_loop]. unfold bind at 1.
  rewrite getRandomNumber_run. unfold bind at 1.
  rewrite checkMapExists_run. cbn [calls record_draw].
  fold (candidate w maxDecimal (draws st)). rewrite Miss. reflexivity.
Qed.

Lemma attempt_hit (fewer : nat) (maxDecimal : number) (st : state) :
  reports_existence
    (fetch_answer w (List.length (calls st))
       (map_url (candidate w maxDecimal (draws st)))) = true ->
  attempt_loop w (S fewer) maxDecimal st =
  settle_details
    (fetch_answer w (S (List.length (calls st)))
       (map_url (candidate w maxDecimal (draws st))))
    (advance [probe_call (candidate w maxDecimal (draws st));
              detail_call (candidate w maxDecimal (draws st))] 1 st).
Proof.
  intros Hit. cbn [attempt_loop]. unfold bind at 1.
  rewrite getRandomNumber_run. unfold bind at 1.
  rewrite checkMapExists_run. cbn [calls record_draw].
  fold (candidate w maxDecimal (draws st)). rewrite Hit.
  unfold bind, fetch, response_json, lift, settle_details.
  cbn [calls record_call record_draw]. rewrite List.length_app. cbn [List.length].
  rewrite Nat.add_1_r.
  unfold advance, record_call, record_draw, set_randomMap; cbn.
  rewrite <- app_assoc, Nat.add_1_r. cbn [app].
  destruct (fetch_answer w (S (List.length (calls st))) _) as [resp | e];
    [destruct (json resp) |]; reflexivity.
Qed.

End Loop.

Section Search.

Variable w : world.

Lemma advance_nothing (st : state) : advance [] 0 st = st.
Proof.
  destruct st. unfold advance. cbn. rewrite app_nil_r, Nat.add_0_r. reflexivity.
Qed.

Lemma advance_after_miss (p : call) (cs : list call) (n : nat) (st : state) :
  advance cs n (record_call p (record_draw st)) = advance (p :: cs) (S n) st.
Proof.
  unfold advance, record_call, record_draw. cbn.
  rewrite <- app_assoc, Nat.add_succ_r. reflexivity.
Qed.

Lemma all_missed_nil (base : nat) : all_missed w base [].
Proof. intros [| i] c H; discriminate H. Qed.

Lemma all_missed_cons (base : nat) (id : string) (misses : list call) :
  reports_existence (fetch_answer w base (map_url id)) = false ->
  all_missed w (S base) misses ->
  all_missed w base (probe_call id :: misses).
Proof.
  intros Miss Rest [| i] c H.
  - injection H as <-. rewrite Nat.add_0_r. split; [reflexivity | exact Miss].
  - rewrite Nat.add_succ_r. apply (Rest i c H).
Qed.

(** A run of the loop: some misses, then either the attempts are used up
    or a hit is followed by the detail fetch. *)
Lemma attempt_loop_run (remaining : nat) (maxDecimal : number) (st : state) :
  exists misses,
    all_missed w (List.length (calls st)) misses /\
    ((List.length misses = remaining /\
      attempt_loop w remaining maxDecimal st = (Ret tt, advance misses remaining st)) \/
     (exists id,
        (List.length misses < remaining)%nat /\
        reports_existence
          (fetch_answer w (List.length (calls st) + List.length misses) (map_url id)) = true /\
        attempt_loop w remaining maxDecimal st =
        settle_details
          (fetch_answer w (List.length (calls st) + S (List.length misses)) (map_url id))
          (advance (misses ++ [probe_call id; detail_call id]) (S (List.length misses)) st))).
Proof.
  revert st; induction remaining as [| fewer IH]; intros st.
  - exists []. split; [apply all_missed_nil |]. left.
    rewrite advance_nothing. split; reflexivity.
  - set (id := candidate w maxDecimal (draws st)).
    destruct (reports_existence (fetch_answer w (List.length (calls st)) (map_url id)))
      eqn:Report.
    + exists []. split; [apply all_missed_nil |]. right. exists id.
      cbn [List.length app]. rewrite Nat.add_0_r, Nat.add_1_r.
      split; [lia |]. split; [exact Report |].
      apply attempt_hit; exact Report.
    + rewrite (attempt_miss w fewer maxDecimal st Report). fold id.
      destruct (IH (record_call (probe_call id) (record_draw st)))
        as (misses & Missed & Run).
      cbn [calls record_call record_draw] in Missed, Run.
      rewrite List.length_app in Missed, Run. cbn [List.length] in Missed, Run.
      rewrite Nat.add_1_r in Missed, Run.
      exists (probe_call id :: misses).
      split; [apply all_missed_cons; assumption |].
      destruct Run as [(Len & Run) | (hit & Len & Hit & Run)].
      * left. cbn [List.length]. split; [lia |].
        rewrite Run, advance_after_miss. reflexivity.
      * right. exists hit. cbn [List.length].
        rewrite !Nat.add_succ_r. cbn [Nat.add] in Hit, Run.
        rewrite !Nat.add_succ_r in Run.
        split; [lia |]. split; [exact Hit |].
        rewrite Run, advance_after_miss. reflexivity.
Qed.

(** [fetchLatestMapId] makes the one call, whatever comes of it, and its
    result depends on the state through the number of calls only. *)
Lemma fetchLatestMapId_calls (st : state) :
  snd (fetchLatestMapId w st) = record_call latest_call st.
Proof.
  unfold fetchLatestMapId, bind, fetch, throw, response_json, lift.
  destruct (fetch_answer w (List.length (calls st)) latest_url) as [resp | e];
    [| reflexivity].
  destruct (ok resp); cbn [negb]; [| reflexivity].
  destruct (json resp) as [data | e]; [| reflexivity].
  destruct (get_named (type_error_message w) data "docs") as [docs | e]; [| reflexivity].
  destruct (get_first (type_error_message w) docs) as [first | e]; reflexivity.
Qed.

Lemma fetchLatestMapId_result (st st' : state) :
  calls st' = calls st ->
  fst (fetchLatestMapId w st') = fst (fetchLatestMapId w st).
Proof.
  intros Same.
  unfold fetchLatestMapId, bind, fetch, throw, response_json, lift. rewrite Same.
  destruct (fetch_answer w (List.length (calls st)) latest_url) as [resp | e];
    [| reflexivity].
  destruct (ok resp); cbn [negb]; [| reflexivity].
  destruct (json resp) as [data | e]; [| reflexivity].
  destruct (get_named (type_error_message w) data "docs") as [docs | e]; [| reflexivity].
  destruct (get_first (type_error_message w) docs) as [first | e]; reflexivity.
Qed.

Lemma fetchLatestMapId_rejected (st : state) (e : exn) :
  fetch_answer w (List.length (calls st)) latest_url = Throw e ->
  fst (fetchLatestMapId w st) = Throw e.
Proof.
  intros Answer. unfold fetchLatestMapId, bind, fetch. rewrite Answer. reflexivity.
Qed.

Lemma fetchLatestMapId_not_ok (st : state) (resp : response) :
  fetch_answer w (List.length (calls st)) latest_url = Ret resp -> ok resp = false ->
  fst (fetchLatestMapId w st) = Throw (ErrorObj lookup_failed).
Proof.
  intros Answer NotOk. unfold fetchLatestMapId, bind, fetch.
  rewrite Answer, NotOk. reflexivity.
Qed.

Lemma findRandomMap_ending (st : state) :
  isLoading (findRandomMap w st) = false /\ ending w st (findRandomMap w st).
Proof.
  split; [reflexivity |].
  unfold findRandomMap. fold (searching st).
  pose proof (fetchLatestMapId_calls (searching st)) as Called.
  pose proof (fetchLatestMapId_result st (searching st) eq_refl) as Result.
  unfold search. unfold bind at 1.
  destruct (fetchLatestMapId w (searching st)) as [[latestMapId | e] st1];
    cbn [fst snd] in Called, Result; subst st1.
  - set (st1 := record_call latest_call (searching st)).
    destruct (attempt_loop_run maxAttempts (hexToDecimal latestMapId) st1)
      as (misses & Missed & Run).
    assert (List.length (calls st1) = S (List.length (calls st))) as Base.
    { subst st1. cbn. rewrite List.length_app. cbn. lia. }
    rewrite Base in Missed, Run.
    unfold bind.
    destruct Run as [(Len & ->) | (id & Len & Report & ->)].
    + apply (NothingFound _ _ _ latestMapId misses); auto.
      cbn. rewrite <- app_assoc. reflexivity.
    + apply (Hit _ _ _ latestMapId misses id); auto.
      * generalize (fetch_answer w (S (List.length (calls st)) + S (List.length misses))
                      (map_url id)).
        intros [resp | e]; unfold settle_details;
          [destruct (json resp) as [details | e]; [destruct (truthy details) eqn:T |] |];
          cbn; rewrite ?T; cbn; rewrite <- app_assoc; reflexivity.
      * generalize (fetch_answer w (S (List.length (calls st)) + S (List.length misses))
                      (map_url id)).
        intros [resp | e]; unfold settle_details, details_of;
          [destruct (json resp) as [details | e]; [destruct (truthy details) eqn:T |] |];
          cbn; rewrite ?T; cbn; auto.
  - apply (LookupFailed _ _ _ e); auto.
Qed.

End Search.

(* ================================================================== *)
(** ** What a search does *)
(* ================================================================== *)

Section Claims.

Variable w : world.

Lemma calls_since_app (st st' : state) (new : list call) :
  calls st' = calls st ++ new -> calls_since st st' = new.
Proof.
  intros E. unfold calls_since. rewrite E, skipn_app, skipn_all, Nat.sub_diag.
  reflexivity.
Qed.

Lemma count_from_app (s : site) (a b : list call) :
  count_from s (a ++ b) = (count_from s a + count_from s b)%nat.
Proof.
  unfold count_from. rewrite filter_app, List.length_app. reflexivity.
Qed.

Lemma all_missed_inv (base : nat) (c : call) (misses : list call) :
  all_missed w base (c :: misses) ->
  from c = AtProbe /\
  reports_existence (fetch_answer w base (url c)) = false /\
  all_missed w (S base) misses.
Proof.
  intros All.
  destruct (All 0%nat c eq_refl) as [P R]. rewrite Nat.add_0_r in R.
  split; [exact P | split; [exact R |]].
  intros i d H. specialize (All (S i) d H). rewrite Nat.add_succ_r in All. exact All.
Qed.

Lemma all_missed_count (base : nat) (misses : list call) :
  all_missed w base misses -> count_from AtProbe misses = List.length misses.
Proof.
  revert base; induction misses as [| c misses IH]; intros base All; [reflexivity |].
  apply all_missed_inv in All as (P & _ & Rest).
  unfold count_from in *. cbn [filter]. rewrite P. cbn [site_eqb List.length].
  f_equal. apply (IH (S base) Rest).
Qed.

(** The probes of a search, by the way it ended. *)
Lemma probes_after_lookup (misses : list call) (base : nat) :
  all_missed w base misses ->
  count_from AtProbe (latest_call :: misses) = List.length misses.
Proof.
  intros All. change (latest_call :: misses) with ([latest_call] ++ misses).
  rewrite count_from_app, (all_missed_count base misses All). reflexivity.
Qed.

Lemma probes_with_hit (misses : list call) (base : nat) (id : string) :
  all_missed w base misses ->
  count_from AtProbe (latest_call :: misses ++ [probe_call id; detail_call id]) =
  S (List.length misses).
Proof.
  intros All.
  change (latest_call :: misses ++ [probe_call id; detail_call id])
    with ([latest_call] ++ misses ++ [probe_call id; detail_call id]).
  rewrite !count_from_app, (all_missed_count base misses All). cbn. lia.
Qed.

(** C3.  A search makes at most ten existence probes; and when the probe
    loop is reached and every probe reports that the map does not exist, it
    makes exactly ten of them and fails with the not-found message. *)
Theorem probe_budget (st : state) :
  let st' := findRandomMap w st in
  let new := calls_since st st' in
  (count_from AtProbe new <= 10)%nat /\
  (forall latestMapId,
     fst (fetchLatestMapId w st) = Ret latestMapId ->
     (forall i c, nth_error new i = Some c -> from c = AtProbe ->
        reports_existence (fetch_answer w (List.length (calls st) + i) (url c)) = false) ->
     count_from AtProbe new = 10%nat /\ error st' = Some not_found).
Proof.
  intros st' new. subst new.
  destruct (findRandomMap_ending w st) as [_ End]. fold st' in End.
  destruct End as [e Failed Calls _ _
                  | id misses _ Len Missed Calls _ Err
                  | id misses hit _ Len Missed Report Calls _];
    rewrite (calls_since_app _ _ _ Calls).
  - split; [cbn; lia |]. intros latestMapId Lookup. congruence.
  - rewrite (probes_after_lookup _ _ Missed), Len.
    unfold maxAttempts. split; [lia |]. intros _ _ _. split; [reflexivity | exact Err].
  - rewrite (probes_with_hit _ _ _ Missed).
    unfold maxAttempts in Len. split; [lia |].
    intros _ _ NoneExists. exfalso.
    specialize (NoneExists (S (List.length misses)) (probe_call hit)).
    cbn [nth_error] in NoneExists.
    rewrite nth_error_app2, Nat.sub_diag in NoneExists by lia.
    specialize (NoneExists eq_refl eq_refl).
    rewrite Nat.add_succ_r in NoneExists. cbn [url probe_call Nat.add] in *.
    congruence.
Qed.

Lemma all_missed_no_detail (base : nat) (misses : list call) :
  all_missed w base misses -> count_from AtDetail misses = 0%nat.
Proof.
  revert base; induction misses as [| c misses IH]; intros base All; [reflexivity |].
  apply all_missed_inv in All as (P & _ & Rest).
  unfold count_from in *. cbn [filter]. rewrite P. cbn [site_eqb].
  apply (IH (S base) Rest).
Qed.

(** A probe that reports a map can only be the last probe of a search
    that ended on the detail fetch. *)
Lemma probe_hit_inversion (st : state) (N : nat) (c : call) :
  nth_error (calls_since st (findRandomMap w st)) N = Some c ->
  from c = AtProbe ->
  reports_existence (fetch_answer w (List.length (calls st) + N) (url c)) = true ->
  exists misses id,
    N = S (List.length misses) /\ (List.length misses < maxAttempts)%nat /\
    all_missed w (S (List.length (calls st))) misses /\
    c = probe_call id /\
    calls_since st (findRandomMap w st) =
      latest_call :: misses ++ [probe_call id; detail_call id] /\
    match details_of (fetch_answer w (List.length (calls st) + S N) (url c)) with
    | Throw e =>
        randomMap (findRandomMap w st) = VNull /\
        error (findRandomMap w st) = Some (message_of e)
    | Ret details =>
        randomMap (findRandomMap w st) = details /\
        error (findRandomMap w st) = if truthy details then None else Some not_found
    end.
Proof.
  intros Nth Probe Report.
  destruct (findRandomMap_ending w st) as [_ End].
  destruct End as [e _ Calls _ _
                  | latest misses _ Len Missed Calls _ _
                  | latest misses id _ Len Missed Hit Calls Details];
    rewrite (calls_since_app _ _ _ Calls) in *.
  - destruct N as [| [| N]]; cbn in Nth; try discriminate Nth.
    injection Nth as <-. discriminate Probe.
  - destruct N as [| i]; cbn [nth_error] in Nth.
    + injection Nth as <-. discriminate Probe.
    + destruct (Missed i c Nth) as [_ Miss].
      rewrite Nat.add_succ_r in Report. cbn [Nat.add] in Miss. congruence.
  - destruct N as [| i]; cbn [nth_error] in Nth.
    { injection Nth as <-. discriminate Probe. }
    destruct (Nat.lt_ge_cases i (List.length misses)) as [Before | After].
    { rewrite nth_error_app1 in Nth by assumption.
      destruct (Missed i c Nth) as [_ Miss].
      rewrite Nat.add_succ_r in Report. cbn [Nat.add] in Miss. congruence. }
    rewrite nth_error_app2 in Nth by assumption.
    destruct (i - List.length misses)%nat as [| [| k]] eqn:Off; cbn in Nth;
      [| | destruct k; discriminate Nth]; injection Nth as <-; [| discriminate Probe].
    assert (i = List.length misses) as -> by lia.
    exists misses, id.
    split; [reflexivity |]. split; [exact Len |]. split; [exact Missed |].
    split; [reflexivity |]. split; [reflexivity |].
    cbn [url probe_call].
    replace (List.length (calls st) + S (S (List.length misses)))%nat
      with (S (List.length (calls st)) + S (List.length misses))%nat by lia.
    exact Details.
Qed.

(** C4.  The calls of a search are numbered from 0, the lookup of the
    latest map being call 0, so that the [N]-th probe is call [N].  When the
    [N]-th probe reports that the map exists, [N] is at most ten, that probe
    is the last one, exactly one detail fetch of the same identifier follows
    it and ends the calls, and the search succeeds with the details that
    fetch returns. *)
Theorem hit_ends_search (st : state) (N : nat) (c : call) :
  let st' := findRandomMap w st in
  let new := calls_since st st' in
  nth_error new N = Some c ->
  from c = AtProbe ->
  reports_existence (fetch_answer w (List.length (calls st) + N) (url c)) = true ->
  (N <= 10)%nat /\
  count_from AtProbe new = N /\
  new = firstn (S N) new ++ [{| from := AtDetail; url := url c |}] /\
  count_from AtDetail new = 1%nat /\
  (forall details,
     details_of (fetch_answer w (List.length (calls st) + S N) (url c)) = Ret details ->
     truthy details = true ->
     randomMap st' = details /\ error st' = None).
Proof.
  intros st' new Nth Probe Report. subst st' new.
  destruct (probe_hit_inversion st N c Nth Probe Report)
    as (misses & id & -> & Len & Missed & -> & -> & Details).
  unfold maxAttempts in Len.
  split; [lia |].
  split; [apply (probes_with_hit _ _ _ Missed) |].
  split.
  { cbn [url probe_call]. rewrite firstn_cons. cbn [app]. f_equal.
    rewrite firstn_app, firstn_all2 by lia.
    replace (S (List.length misses) - List.length misses)%nat with 1%nat by lia.
    cbn [firstn]. rewrite <- app_assoc. reflexivity. }
  split.
  { change (latest_call :: misses ++ [probe_call id; detail_call id])
      with ([latest_call] ++ misses ++ [probe_call id; detail_call id]).
    rewrite !count_from_app, (all_missed_no_detail _ _ Missed). reflexivity. }
  intros details Fetched Truthy.
  rewrite Fetched, Truthy in Details. exact Details.
Qed.

(** The half of C1 that the script honours: when the detail fetch throws,
    or the body does not parse, the search fails with the message of what
    was thrown. *)
Lemma detail_failure_propagates (st : state) (N : nat) (c : call) (e : exn) :
  nth_error (calls_since st (findRandomMap w st)) N = Some c ->
  from c = AtProbe ->
  reports_existence (fetch_answer w (List.length (calls st) + N) (url c)) = true ->
  details_of (fetch_answer w (List.length (calls st) + S N) (url c)) = Throw e ->
  randomMap (findRandomMap w st) = VNull /\
  error (findRandomMap w st) = Some (message_of e).
Proof.
  intros Nth Probe Report Thrown.
  destruct (probe_hit_inversion st N c Nth Probe Report)
    as (misses & id & _ & _ & _ & _ & _ & Details).
  rewrite Thrown in Details. exact Details.
Qed.

(** C2, amended.  When the lookup of the latest map fails, the search ends
    at once: no probe is made, [randomMap] stays null, and the error is the
    message of what [fetch] threw for a network failure, "Failed to fetch
    latest map" for a status that is not ok. *)
Theorem lookup_failure (st : state) (reason : string) :
  lookup_error (fetch_answer w (List.length (calls st)) latest_url) = Some reason ->
  let st' := findRandomMap w st in
  error st' = Some reason /\ randomMap st' = VNull /\ isLoading st' = false /\
  calls_since st st' = [latest_call] /\
  count_from AtProbe (calls_since st st') = 0%nat.
Proof.
  intros Failure st'. subst st'.
  assert (exists e, fst (fetchLatestMapId w st) = Throw e /\ message_of e = reason)
    as (e & Thrown & Message).
  { unfold lookup_error in Failure.
    destruct (fetch_answer w (List.length (calls st)) latest_url) as [resp | e] eqn:Answer.
    - destruct (ok resp) eqn:Ok; [discriminate Failure |].
      injection Failure as <-. exists (ErrorObj lookup_failed).
      split; [apply (fetchLatestMapId_not_ok w st resp Answer Ok) | reflexivity].
    - injection Failure as <-. exists e.
      split; [apply (fetchLatestMapId_rejected w st e Answer) | reflexivity]. }
  destruct (findRandomMap_ending w st) as [Loading End].
  destruct End as [e' Failed Calls Null Err | id ? Found | id ? ? Found];
    try congruence.
  rewrite (calls_since_app _ _ _ Calls).
  assert (e' = e) as -> by congruence.
  rewrite Message in Err. repeat split; assumption || reflexivity.
Qed.

(** C5.  [checkMapExists] always returns: for every identifier it gives
    what the answer reports, and [false] when the fetch throws; the loop
    then goes on with the attempts that remain. *)
Theorem checkMapExists_total :
  (forall mapId st, exists b, fst (checkMapExists w mapId st) = Ret b) /\
  (forall mapId st e,
     fetch_answer w (List.length (calls st)) (map_url mapId) = Throw e ->
     fst (checkMapExists w mapId st) = Ret false) /\
  (forall maxDecimal fewer st e,
     fetch_answer w (List.length (calls st))
       (map_url (candidate w maxDecimal (draws st))) = Throw e ->
     attempt_loop w (S fewer) maxDecimal st =
     attempt_loop w fewer maxDecimal
       (record_call (probe_call (candidate w maxDecimal (draws st))) (record_draw st))).
Proof.
  split; [| split].
  - intros mapId st. rewrite checkMapExists_run. eexists. reflexivity.
  - intros mapId st e Thrown. rewrite checkMapExists_run, Thrown. reflexivity.
  - intros maxDecimal fewer st e Thrown.
    apply attempt_miss. rewrite Thrown. reflexivity.
Qed.

(** C9, amended.  Every search ends with the loading flag cleared and with
    exactly one of these: [randomMap] is truthy, which is what the view
    tests, or [error] is not null. *)
Theorem search_settles (st : state) :
  let st' := findRandomMap w st in
  isLoading st' = false /\
  ((truthy (randomMap st') = true /\ error st' = None) \/
   (truthy (randomMap st') = false /\ exists reason, error st' = Some reason)).
Proof.
  intros st'. subst st'.
  destruct (findRandomMap_ending w st) as [Loading End].
  split; [exact Loading |].
  destruct End as [e _ _ Null Err | id misses _ _ _ _ Null Err
                  | id misses hit _ _ _ _ _ Details].
  - right. rewrite Null, Err. split; [reflexivity | eexists; reflexivity].
  - right. rewrite Null, Err. split; [reflexivity | eexists; reflexivity].
  - destruct (details_of _) as [details | e].
    + destruct Details as [-> ->]. destruct (truthy details) eqn:T.
      * left. split; reflexivity.
      * right. split; [reflexivity | eexists; reflexivity].
    + destruct Details as [-> ->]. right. split; [reflexivity | eexists; reflexivity].
Qed.

End Claims.

Lemma probe_budget_witness :
  (count_from AtProbe (calls_since initial (findRandomMap empty_catalog initial)) <= 10)%nat /\
  count_from AtProbe (calls_since initial (findRandomMap empty_catalog initial)) = 10%nat /\
  error (findRandomMap empty_catalog initial) = Some not_found.
Proof.
  destruct (probe_budget empty_catalog initial) as [Bound Exhausted].
  split; [exact Bound |].
  apply (Exhausted (VString "10")); [reflexivity |].
  intros i c Nth Probe. vm_compute in Nth.
  do 11 (destruct i as [| i];
         [injection Nth as <-; first [discriminate Probe | reflexivity] |]).
  destruct i; discriminate Nth.
Defined.

Lemma hit_ends_search_witness :
  let st' := findRandomMap scenario initial in
  let new := calls_since initial st' in
  (3 <= 10)%nat /\
  count_from AtProbe new = 3%nat /\
  new = firstn 4 new ++ [detail_call "a"] /\
  count_from AtDetail new = 1%nat /\
  randomMap st' = map_body "a" /\ error st' = None.
Proof.
  destruct (hit_ends_search scenario initial 3 (probe_call "a"))
    as (Budget & Probes & Calls & Details & Success);
    [reflexivity | reflexivity | reflexivity |].
  repeat (split; [assumption |]).
  apply Success; reflexivity.
Defined.

Lemma lookup_failure_witness :
  let st' := findRandomMap server_error initial in
  error st' = Some lookup_failed /\ randomMap st' = VNull /\ isLoading st' = false /\
  calls_since initial st' = [latest_call] /\
  count_from AtProbe (calls_since initial st') = 0%nat.
Proof.
  apply (lookup_failure server_error initial lookup_failed). reflexivity.
Defined.

Lemma checkMapExists_total_witness :
  fst (checkMapExists offline "a" initial) = Ret false.
Proof.
  apply (proj1 (proj2 (checkMapExists_total offline)) "a"%string initial
           (ErrorObj "Failed to fetch")).
  reflexivity.
Defined.

(** The scenario of the specification, run from the initial state. *)
Example scenario_run :
  findRandomMap scenario initial =
  {| randomMap := map_body "a"; isLoading := false; error := None;
     calls := [latest_call; probe_call "2"; probe_call "10"; probe_call "a";
               detail_call "a"];
     draws := 3 |}.
Proof. reflexivity. Qed.

(** C2 as first stated fails for a network failure: the message shown is
    the one [fetch] threw, not the script's. *)
Lemma network_failure_message :
  fetch_answer offline (List.length (calls initial)) latest_url =
    Throw (ErrorObj "Failed to fetch") /\
  error (findRandomMap offline initial) = Some "Failed to fetch"%string /\
  error (findRandomMap offline initial) <> Some "Failed to fetch latest map"%string.
Proof.
  split; [reflexivity |]. split; [reflexivity |]. vm_compute. discriminate.
Qed.

(** C9 as first stated fails when the body of the detail fetch is a falsy
    value other than null: [randomMap] holds it and [error] is set. *)
Lemma falsy_details_leave_both :
  randomMap (findRandomMap detail_false initial) <> VNull /\
  error (findRandomMap detail_false initial) <> None.
Proof.
  split; vm_compute; discriminate.
Qed.

(** C1 on the script: the first probe finds map [1], the detail fetch is
    answered with an error status, and the search ends without an error,
    the error body taken for the map. *)
Lemma detail_status_unchecked :
  let st' := findRandomMap detail_refused initial in
  calls_since initial st' = [latest_call; probe_call "1"; detail_call "1"] /\
  reports_existence (fetch_answer detail_refused 1 (map_url "1")) = true /\
  fetch_answer detail_refused 2 (map_url "1") = respond false error_body /\
  error st' = None /\ randomMap st' = error_body.
Proof.
  repeat split.
Qed.

(* ================================================================== *)
(** ** Durations *)
(* ================================================================== *)

Section Duration.

Local Open Scope string_scope.
Local Open Scope Z_scope.

(** The rounded quotient of a natural number below [2^53] by a positive
    integer never reaches the next whole number: its floor is the integer
    quotient. *)
Lemma round_ratio_floor (a d : Z) :
  0 < a < 2 ^ 53 -> 0 < d ->
  exists m t,
    round_ratio a d = (m, t) /\ 0 <= t /\
    (a / d) * 2 ^ t <= m < (a / d + 1) * 2 ^ t /\
    (a mod d <> 0 -> (a / d) * 2 ^ t < m) /\
    (a mod d = 0 -> m = (a / d) * 2 ^ t).
Proof.
  intros [Pa Ha] Pd.
  assert (Z.log2 a <= 52) as La.
  { assert (Z.log2 a < 53) by (apply Z.log2_lt_pow2; lia). lia. }
  pose proof (Z.log2_nonneg a) as La0.
  pose proof (Z.log2_nonneg d) as Ld0.
  destruct (Z.log2_spec d Pd) as [_ Dhi].
  unfold round_ratio.
  set (t0 := 53 + Z.log2 d - Z.log2 a).
  set (t := if 2 ^ 53 <=? _ then t0 - 1 else t0).
  assert (Z.log2 d <= t) as Ht.
  { subst t. destruct (2 ^ 53 <=? _); subst t0; lia. }
  destruct (Z.leb_spec 0 t) as [T0 | Neg]; [| lia].
  assert (0 < 2 ^ t) as Pt by (apply Z.pow_pos_nonneg; lia).
  assert (d < 2 * 2 ^ t) as Wide.
  { assert (2 ^ Z.succ (Z.log2 d) <= 2 * 2 ^ t).
    { rewrite Z.pow_succ_r by lia.
      apply Z.mul_le_mono_nonneg_l; [lia | apply Z.pow_le_mono_r; lia]. }
    lia. }
  clearbody t. clear t0 Ht.
  pose proof (Z.div_mod a d ltac:(lia)) as DM.
  pose proof (Z.mod_pos_bound a d Pd) as RB.
  set (k := a / d) in *. set (r := a mod d) in *.
  pose proof (Z.div_mod (r * 2 ^ t) d ltac:(lia)) as DM2.
  pose proof (Z.mod_pos_bound (r * 2 ^ t) d Pd) as RB2.
  set (f := r * 2 ^ t / d) in *. set (rest := (r * 2 ^ t) mod d) in *.
  assert (0 <= f < 2 ^ t) as Hf.
  { split.
    - apply Z.div_pos; [apply Z.mul_nonneg_nonneg; lia | lia].
    - apply Z.div_lt_upper_bound; [lia |]. nia. }
  assert (a * 2 ^ t = (k * 2 ^ t + f) * d + rest) as Split by nia.
  assert (a * 2 ^ t / d = k * 2 ^ t + f) as ->.
  { symmetry. apply (Z.div_unique_pos _ _ _ rest); lia. }
  assert ((a * 2 ^ t) mod d = rest) as ->.
  { symmetry. apply (Z.mod_unique_pos _ _ (k * 2 ^ t + f)); lia. }
  destruct ((d <? 2 * rest) || ((2 * rest =? d) && Z.odd (k * 2 ^ t + f))) eqn:Up.
  - (* rounded up: the fraction is at least a half, so f is not the last *)
    assert (d <= 2 * rest) as Half.
    { apply orb_prop in Up as [Up | Up].
      - apply Z.ltb_lt in Up. lia.
      - apply andb_prop in Up as [Up _]. apply Z.eqb_eq in Up. lia. }
    exists (k * 2 ^ t + f + 1), t.
    split; [reflexivity |]. split; [lia |].
    assert (f + 1 < 2 ^ t) as Room.
    { destruct (Z.eq_dec f (2 ^ t - 1)) as [Last | NotLast]; [| lia].
      exfalso. subst f. rewrite Last in DM2.
      assert (rest = d - (d - r) * 2 ^ t) by lia.
      assert (2 ^ t <= (d - r) * 2 ^ t) by nia.
      lia. }
    split; [nia |]. split; [intros _; nia |].
    intros Exact. exfalso.
    assert (f = 0) by (subst f; rewrite Exact, Z.mul_0_l; apply Z.div_0_l; lia).
    assert (rest = 0) by (subst rest; rewrite Exact, Z.mul_0_l; apply Z.mod_0_l; lia).
    lia.
  - exists (k * 2 ^ t + f), t.
    split; [reflexivity |]. split; [lia |].
    split; [nia |].
    split;
      [| intros Exact;
         assert (f = 0) by (subst f; rewrite Exact, Z.mul_0_l; apply Z.div_0_l; lia);
         lia].
    intros NonZero.
    (* not rounded up although r > 0: then f > 0 *)
    assert (0 < f); [| nia].
    destruct (Z.eq_dec f 0) as [Zero | Pos]; [| lia].
    exfalso. rewrite Zero in DM2.
    assert (rest = r * 2 ^ t) as Er by lia.
    assert (2 ^ t <= r * 2 ^ t) by nia.
    apply orb_false_elim in Up as [Up _]. apply Z.ltb_ge in Up. lia.
Qed.

Lemma floor_div_exact (z d : Z) :
  Z.abs z < 2 ^ 53 -> 0 < d -> floor_div (Int z) d = Int (z / d).
Proof.
  intros Safe Pd. unfold floor_div.
  destruct (Z.eqb_spec z 0) as [-> | NonZero]; [rewrite Z.div_0_l by lia; reflexivity |].
  destruct (round_ratio_floor (Z.abs z) d ltac:(lia) Pd)
    as (m & t & -> & Ht & Bounds & Strict & Same).
  destruct (Z.leb_spec 0 t) as [_ | Neg]; [| lia].
  assert (0 < 2 ^ t) as Pt by (apply Z.pow_pos_nonneg; lia).
  f_equal.
  destruct (Z.ltb_spec z 0) as [Negative | Positive].
  - rewrite Z.abs_neq in * by lia.
    pose proof (Z.div_mod (- z) d ltac:(lia)) as DM.
    pose proof (Z.mod_pos_bound (- z) d Pd) as RB.
    set (k := - z / d) in *. set (r := (- z) mod d) in *.
    destruct (Z.eq_dec r 0) as [Exact | Inexact].
    + specialize (Same Exact).
      assert (z / d = - k) as ->.
      { symmetry. apply (Z.div_unique_pos _ _ _ 0); lia. }
      symmetry. apply (Z.div_unique_pos _ _ _ 0); lia.
    + specialize (Strict Inexact).
      assert (z / d = - k - 1) as ->.
      { symmetry. apply (Z.div_unique_pos _ _ _ (d - r)); lia. }
      symmetry. apply (Z.div_unique_pos _ _ _ ((k + 1) * 2 ^ t - m)); nia.
  - rewrite Z.abs_eq in * by lia.
    symmetry. apply (Z.div_unique_pos _ _ _ (m - z / d * 2 ^ t)); nia.
Qed.


Lemma toString10_safe (large : Z -> string) (z : Z) :
  Z.abs z <= MAX_SAFE_INTEGER -> toString10 large (Int z) = decimal z.
Proof.
  intros Safe. unfold toString10.
  destruct (Z.leb_spec (Z.abs z) MAX_SAFE_INTEGER); [reflexivity | lia].
Qed.

(** Padding to two characters puts a zero before a single digit. *)
Lemma pad_two_digits (r : Z) :
  0 <= r < 60 -> padStart (decimal r) 2 "0" = two_digits r.
Proof.
  intros Range.
  assert (exists n, r = Z.of_nat n /\ (n < 60)%nat) as (n & -> & Small)
    by (exists (Z.to_nat r); lia).
  clear Range.
  do 60 (destruct n as [| n]; [reflexivity |]). lia.
Qed.

(** A remainder with a minus sign is already two characters long. *)
Lemma pad_negative (r : Z) :
  -60 < r < 0 -> padStart (decimal r) 2 "0" = decimal r.
Proof.
  intros Range.
  assert (exists n, r = - Z.of_nat n /\ (0 < n < 60)%nat) as (n & -> & Small)
    by (exists (Z.to_nat (- r)); lia).
  clear Range.
  destruct n as [| n]; [lia |].
  do 59 (destruct n as [| n]; [reflexivity |]). lia.
Qed.

(** X13.  For a whole number of seconds from 0 to [MAX_SAFE_INTEGER],
    [formatDuration] prints the integer quotient by 60 in decimal, a colon,
    and the remainder on exactly two digits. *)
Theorem formatDuration_whole (large : Z -> string) (seconds : Z) :
  0 <= seconds <= MAX_SAFE_INTEGER ->
  formatDuration large (Int seconds) =
  decimal (seconds / 60) ++ ":" ++ two_digits (seconds mod 60).
Proof.
  unfold MAX_SAFE_INTEGER. intros Range. unfold formatDuration.
  rewrite floor_div_exact by lia. cbn [floor_rem].
  rewrite Z.rem_mod_nonneg by lia.
  pose proof (Z.mod_pos_bound seconds 60 ltac:(lia)) as RB.
  assert (0 <= seconds / 60 <= seconds) as QB.
  { split; [apply Z.div_pos; lia | apply Z.div_le_upper_bound; lia]. }
  rewrite !toString10_safe by (unfold MAX_SAFE_INTEGER; lia).
  rewrite pad_two_digits by lia. reflexivity.
Qed.

(** X14.  For a negative whole number of seconds that is no multiple of
    60, [formatDuration] prints the quotient rounded down and the remainder
    with its minus sign, unpadded: a pair that stands for a time 60 seconds
    below the one given. *)
Theorem formatDuration_negative (large : Z -> string) (seconds : Z) :
  - MAX_SAFE_INTEGER <= seconds < 0 -> seconds mod 60 <> 0 ->
  formatDuration large (Int seconds) =
    decimal (seconds / 60) ++ ":" ++ decimal (Z.rem seconds 60) /\
  -60 < Z.rem seconds 60 < 0 /\
  60 * (seconds / 60) + Z.rem seconds 60 = seconds - 60.
Proof.
  unfold MAX_SAFE_INTEGER. intros Range Odd.
  pose proof (Z.rem_bound_pos_neg seconds 60 ltac:(lia) ltac:(lia)) as RB.
  pose proof (Z.quot_rem seconds 60 ltac:(lia)) as QR.
  pose proof (Z.div_mod seconds 60 ltac:(lia)) as DM.
  pose proof (Z.mod_pos_bound seconds 60 ltac:(lia)) as MB.
  assert (Z.rem seconds 60 = seconds mod 60 - 60) as Rem by lia.
  assert (seconds <= seconds / 60 <= 0) as QB.
  { split; [apply Z.div_le_lower_bound; lia | ].
    assert (seconds / 60 < 0) by (apply Z.div_lt_upper_bound; lia). lia. }
  split; [| split; lia].
  unfold formatDuration.
  rewrite floor_div_exact by lia. cbn [floor_rem].
  rewrite !toString10_safe by (unfold MAX_SAFE_INTEGER; lia).
  rewrite pad_negative by lia. reflexivity.
Qed.

End Duration.

Lemma formatDuration_whole_witness :
  formatDuration (fun _ => EmptyString) (Int 125) = "2:05"%string.
Proof.
  apply (formatDuration_whole (fun _ => EmptyString) 125).
  unfold MAX_SAFE_INTEGER. lia.
Defined.

Lemma formatDuration_negative_witness :
  formatDuration (fun _ => EmptyString) (Int (-65)) = "-2:-5"%string /\
  -60 < Z.rem (-65) 60 < 0 /\
  60 * (-65 / 60) + Z.rem (-65) 60 = -65 - 60.
Proof.
  apply (formatDuration_negative (fun _ => EmptyString) (-65)).
  - unfold MAX_SAFE_INTEGER. lia.
  - vm_compute. discriminate.
Defined.

(* ================================================================== *)
(** ** More on the conversions *)
(* ================================================================== *)

Section MoreConversions.

Local Open Scope string_scope.
Local Open Scope Z_scope.

Lemma strip_prefix_lower (s : string) :
  string_forall is_lower_hex s = true -> strip_prefix s = s.
Proof.
  destruct s as [| c [| x rest]]; try reflexivity.
  intros All. cbn [string_forall] in All.
  apply andb_prop in All as [_ All]. apply andb_prop in All as [Hx _].
  destruct (lower_hex_value x Hx) as (dx & Vx & _).
  destruct (digit_not_special x dx Vx) as (_ & _ & _ & Lx & Ux).
  cbn [strip_prefix]. rewrite Lx, Ux, andb_false_r. reflexivity.
Qed.

Lemma toString16_nonempty (x : number) : toString16 x <> "".
Proof.
  destruct x as [| [] | z]; cbn [toString16]; try discriminate.
  destruct (z <? 0); [discriminate | apply hex_digits_nonempty].
Qed.

(** X2.  [toString(16)] never gives the empty string, so the
    [padStart(1, '0')] of [decimalToHex] never adds a character: for every
    number, NaN and the infinities included, [decimalToHex] is
    [toString(16)]. *)
Theorem decimalToHex_never_pads (x : number) :
  decimalToHex x = toString16 x /\ decimalToHex x <> "".
Proof.
  assert (decimalToHex x = toString16 x) as E
    by (apply padStart_one, toString16_nonempty).
  split; [exact E | rewrite E; apply toString16_nonempty].
Qed.

(** X1.  For every integer from [-2^53] to [2^53], zero and the negative
    ones included, [hexToDecimal(decimalToHex(z))] is [z]. *)
Theorem safe_integer_round_trip (z : Z) :
  - 2 ^ 53 <= z <= 2 ^ 53 ->
  hexToDecimal (VString (decimalToHex (Int z))) = Int z.
Proof.
  intros Range.
  destruct (Z.lt_ge_cases z 0) as [Negative | Natural].
  - unfold hexToDecimal, decimalToHex. cbn [to_string toString16].
    destruct (Z.ltb_spec z 0); [| lia].
    rewrite padStart_one by discriminate.
    unfold parseInt16. cbn [trim_start].
    change (is_white_space "-") with false. cbv iota.
    cbn [strip_sign]. change (Ascii.eqb "-" "-") with true. cbv iota.
    unfold hex_length.
    rewrite strip_prefix_lower, digit_prefix_lower by apply hex_digits_lower.
    pose proof (hex_digits_nonempty (Z.to_nat (Z.log2 (- z) / 4)) (- z)) as NE.
    fold (hex_length (- z)) in *.
    destruct (hex_digits (hex_length (- z)) (- z)) eqn:Digits; [congruence |].
    rewrite <- Digits. rewrite digits_value_hex_digits.
    destruct (hex_length_bounds (- z) ltac:(lia)) as [Below _].
    rewrite Z.mod_small, Z.mul_0_l, Z.add_0_l, Z.opp_involutive by lia.
    unfold of_Z, round. destruct (Z.ltb_spec z 0); [| lia].
    rewrite round_nat_safe by lia. rewrite Z.opp_involutive.
    destruct (Z.leb_spec (2 ^ 1024) (Z.abs z)); [lia | reflexivity].
  - apply hexToDecimal_decimalToHex; [lia | apply round_nat_safe; lia | lia].
Qed.



(** What [parseInt] looks at in a code unit is the same for a letter and
    its lowercase form. *)
Lemma lower_ascii_facts (c : ascii) :
  is_white_space (lower_ascii c) = is_white_space c /\
  Ascii.eqb (lower_ascii c) "-" = Ascii.eqb c "-" /\
  Ascii.eqb (lower_ascii c) "+" = Ascii.eqb c "+" /\
  Ascii.eqb (lower_ascii c) "0" = Ascii.eqb c "0" /\
  (Ascii.eqb (lower_ascii c) "x" || Ascii.eqb (lower_ascii c) "X")%bool =
    (Ascii.eqb c "x" || Ascii.eqb c "X")%bool /\
  digit_value (lower_ascii c) = digit_value c.
Proof.
  each_ascii c; vm_compute; repeat split.
Qed.

Lemma trim_start_lower (s : string) :
  trim_start (lower_string s) = lower_string (trim_start s).
Proof.
  induction s as [| c s IH]; [reflexivity |].
  cbn [lower_string trim_start].
  destruct (lower_ascii_facts c) as (-> & _).
  destruct (is_white_space c); [exact IH | reflexivity].
Qed.

Lemma strip_sign_lower (s : string) :
  strip_sign (lower_string s) =
  (fst (strip_sign s), lower_string (snd (strip_sign s))).
Proof.
  destruct s as [| c s]; [reflexivity |].
  cbn [lower_string strip_sign].
  destruct (lower_ascii_facts c) as (_ & -> & -> & _).
  destruct (Ascii.eqb c "-"); [reflexivity |].
  destruct (Ascii.eqb c "+"); reflexivity.
Qed.

Lemma strip_prefix_lower_string (s : string) :
  strip_prefix (lower_string s) = lower_string (strip_prefix s).
Proof.
  destruct s as [| c [| x s]]; try reflexivity.
  cbn [lower_string strip_prefix].
  destruct (lower_ascii_facts c) as (_ & _ & _ & -> & _).
  destruct (lower_ascii_facts x) as (_ & _ & _ & _ & -> & _).
  destruct (Ascii.eqb c "0" && (Ascii.eqb x "x" || Ascii.eqb x "X")); reflexivity.
Qed.

Lemma digit_prefix_lower_string (s : string) :
  digit_prefix (lower_string s) = lower_string (digit_prefix s).
Proof.
  induction s as [| c s IH]; [reflexivity |].
  cbn [lower_string digit_prefix].
  destruct (lower_ascii_facts c) as (_ & _ & _ & _ & _ & ->).
  destruct (digit_value c); [cbn [lower_string]; rewrite IH |]; reflexivity.
Qed.

Lemma digits_value_lower_string (s : string) (acc : Z) :
  digits_value acc (lower_string s) = digits_value acc s.
Proof.
  revert acc; induction s as [| c s IH]; intros acc; [reflexivity |].
  cbn [lower_string digits_value].
  destruct (lower_ascii_facts c) as (_ & _ & _ & _ & _ & ->).
  apply IH.
Qed.

(** X3.  [hexToDecimal] reads letters in either case alike: a string and
    its lowercase form give the same number, whatever else the string
    holds. *)
Theorem hexToDecimal_case_insensitive (s : string) :
  hexToDecimal (VString (lower_string s)) = hexToDecimal (VString s).
Proof.
  unfold hexToDecimal. cbn [to_string]. unfold parseInt16.
  rewrite trim_start_lower, strip_sign_lower.
  destruct (strip_sign (trim_start s)) as [negative rest]. cbn [fst snd].
  rewrite strip_prefix_lower_string, digit_prefix_lower_string.
  destruct (digit_prefix (strip_prefix rest)) as [| c digits] eqn:Digits;
    [reflexivity |].
  rewrite <- Digits at 2. cbn [lower_string].
  change (String (lower_ascii c) (lower_string digits))
    with (lower_string (String c digits)).
  rewrite digits_value_lower_string, Digits. reflexivity.
Qed.

End MoreConversions.

Lemma safe_integer_round_trip_witness :
  hexToDecimal (VString (decimalToHex (Int (-255)))) = Int (-255).
Proof. apply safe_integer_round_trip. lia. Defined.

(* ================================================================== *)
(** ** More on the sampling *)
(* ================================================================== *)

Section MoreSampling.

Local Open Scope Z_scope.

Lemma of_Z_exact (z : Z) : Z.abs z <= 2 ^ 53 -> of_Z z = Int z.
Proof.
  intros Safe. unfold of_Z, round.
  destruct (Z.ltb_spec z 0) as [Negative | Natural].
  - rewrite round_nat_safe by lia. rewrite Z.opp_involutive.
    destruct (Z.leb_spec (2 ^ 1024) (Z.abs z)); [lia | reflexivity].
  - rewrite round_nat_safe by lia.
    destruct (Z.leb_spec (2 ^ 1024) (Z.abs z)); [lia | reflexivity].
Qed.

Variable w : world.

(** X4.  For integers [min <= max] of magnitude up to [2^52],
    [getRandomNumber(min, max)] is an integer from [min] to [max],
    whatever [Math.random()] returns. *)
Theorem getRandomNumber_between (st : state) (min max : Z) :
  - 2 ^ 52 <= min -> min <= max -> max < 2 ^ 52 ->
  unit_ok (random_answer w (draws st)) ->
  exists n,
    fst (getRandomNumber w (Int min) (Int max) st) = Ret (Int n) /\
    min <= n <= max.
Proof.
  intros Lo Le Hi (Hm & Hk & Hmk).
  set (r := random_answer w (draws st)) in *.
  pose proof (product_below (mant r) (expo r) (max - min + 1) Hm (proj1 Hk) Hmk
                ltac:(lia)) as [F0 Fw].
  exists (round_nat (mant r * (max - min + 1)) / 2 ^ expo r + min).
  split; [| lia].
  unfold getRandomNumber, random, bind, ret. cbn [fst]. fold r.
  f_equal. unfold sub. cbn [neg add].
  rewrite (of_Z_exact (max + - min)) by lia. cbn [add].
  rewrite (of_Z_exact (max + - min + 1)) by lia. cbn [floor_mul add].
  replace (max + - min + 1) with (max - min + 1) by lia.
  rewrite (round_of_nonneg (mant r * (max - min + 1)))
    by (apply Z.mul_nonneg_nonneg; lia).
  apply of_Z_exact. lia.
Qed.

(** X5.  Every integer from 1 to [maxId] can come out of
    [getRandomNumber(1, maxId)], for [maxId] up to [2^52]: when
    [Math.random()] returns [draw_for maxId candidate], a double of the unit
    interval, the result is [candidate]. *)
Theorem every_candidate_can_be_drawn (maxId candidate : Z) :
  1 <= candidate <= maxId -> maxId <= 2 ^ 52 ->
  unit_ok (draw_for maxId candidate) /\
  forall st, random_answer w (draws st) = draw_for maxId candidate ->
    fst (getRandomNumber w (Int 1) (Int maxId) st) = Ret (Int candidate).
Proof.
  intros [C1 Cn] Small. unfold draw_for.
  set (m := ((candidate - 1) * 2 ^ 53 + maxId - 1) / maxId).
  assert ((candidate - 1) * 2 ^ 53 <= m * maxId <= (candidate - 1) * 2 ^ 53 + maxId - 1)
    as [Mlo Mhi].
  { pose proof (Z.div_mod ((candidate - 1) * 2 ^ 53 + maxId - 1) maxId ltac:(lia)) as DM.
    pose proof (Z.mod_pos_bound ((candidate - 1) * 2 ^ 53 + maxId - 1) maxId ltac:(lia)).
    fold m in DM. lia. }
  assert (0 <= m < 2 ^ 53) as Hm.
  { split.
    - apply Z.div_pos; lia.
    - apply Z.div_lt_upper_bound; [lia |]. nia. }
  split; [unfold unit_ok; cbn [mant expo]; lia |].
  intros st Draw.
  unfold getRandomNumber, random, bind, ret. cbn [fst]. rewrite Draw.
  f_equal. unfold sub. cbn [neg add].
  rewrite (of_Z_exact (maxId + - (1))) by lia. cbn [add].
  rewrite (of_Z_exact (maxId + - (1) + 1)) by lia. cbn [floor_mul mant expo].
  replace (maxId + - (1) + 1) with maxId by lia.
  rewrite (round_of_nonneg (m * maxId)) by lia.
  assert ((candidate - 1) * 2 ^ 53 <= round_nat (m * maxId) < candidate * 2 ^ 53)
    as [Rlo Rhi].
  { split.
    - apply round_nat_ge; [lia |]. apply round_nat_exact; lia.
    - destruct (Z.lt_ge_cases (m * maxId) (2 ^ 53)) as [Exact | Big].
      + rewrite round_nat_small by assumption. lia.
      + pose proof (round_nat_upper _ Big) as Upper.
        assert (2 ^ (Z.log2 (m * maxId) - 53) < maxId).
        { assert (53 <= Z.log2 (m * maxId)) as L53 by (apply Z.log2_le_pow2; lia).
          destruct (Z.log2_spec (m * maxId) ltac:(lia)) as [Lo _].
          replace (Z.log2 (m * maxId)) with (53 + (Z.log2 (m * maxId) - 53)) in Lo at 1
            by lia.
          rewrite Z.pow_add_r in Lo by lia.
          assert (m * maxId < 2 ^ 53 * maxId) by (apply Z.mul_lt_mono_pos_r; lia).
          assert (0 < 2 ^ (Z.log2 (m * maxId) - 53)) by (apply Z.pow_pos_nonneg; lia).
          nia. }
        lia. }
  assert (round_nat (m * maxId) / 2 ^ 53 = candidate - 1) as ->.
  { symmetry.
    apply (Z.div_unique_pos _ _ _ (round_nat (m * maxId) - (candidate - 1) * 2 ^ 53)); lia. }
  cbn [add]. replace (candidate - 1 + 1) with candidate by lia.
  apply of_Z_exact. lia.
Qed.

End MoreSampling.

Lemma getRandomNumber_between_witness :
  exists n,
    fst (getRandomNumber scenario (Int (-3)) (Int 12) initial) = Ret (Int n) /\
    -3 <= n <= 12.
Proof.
  apply getRandomNumber_between; try lia.
  unfold unit_ok; cbn; lia.
Defined.

Lemma every_candidate_can_be_drawn_witness :
  unit_ok (draw_for 16 16) /\
  fst (getRandomNumber (scripted [] [draw_for 16 16]) (Int 1) (Int 16) initial) =
    Ret (Int 16).
Proof.
  destruct (every_candidate_can_be_drawn (scripted [] [draw_for 16 16]) 16 16)
    as [Ok Drawn]; [lia | lia |].
  split; [exact Ok | apply Drawn; reflexivity].
Defined.

(* ================================================================== *)
(** ** The calls of a search, and what it leaves on the page *)
(* ================================================================== *)

Section History.

Variable w : world.

Lemma probes_of_succ (maxDecimal : number) (first n : nat) :
  probes_of w maxDecimal first (S n) =
  probe_call (candidate w maxDecimal first) :: probes_of w maxDecimal (S first) n.
Proof.
  unfold probes_of. cbn [seq map]. rewrite Nat.add_0_r. f_equal.
  rewrite <- seq_shift, map_map.
  apply map_ext. intros i. rewrite Nat.add_succ_r. reflexivity.
Qed.

Lemma nth_probes_of (maxDecimal : number) (first n i : nat) (c : call) :
  nth_error (probes_of w maxDecimal first n) i = Some c ->
  (i < n)%nat /\ c = probe_call (candidate w maxDecimal (first + i)).
Proof.
  revert first i; induction n as [| n IH]; intros first i Nth.
  - destruct i; discriminate Nth.
  - rewrite probes_of_succ in Nth. destruct i as [| i]; cbn [nth_error] in Nth.
    + injection Nth as <-. rewrite Nat.add_0_r. split; [lia | reflexivity].
    + destruct (IH (S first) i Nth) as [Lt ->].
      rewrite Nat.add_succ_r. split; [lia | reflexivity].
Qed.

Lemma probes_of_counts (maxDecimal : number) (first n : nat) :
  List.length (probes_of w maxDecimal first n) = n /\
  count_from AtProbe (probes_of w maxDecimal first n) = n /\
  count_from AtLatest (probes_of w maxDecimal first n) = 0%nat /\
  count_from AtDetail (probes_of w maxDecimal first n) = 0%nat.
Proof.
  revert first; induction n as [| n IH]; intros first.
  - repeat split.
  - rewrite probes_of_succ. destruct (IH (S first)) as (L & P & La & D).
    unfold count_from in *. cbn [filter List.length from probe_call site_eqb].
    rewrite L, P, La, D. repeat split.
Qed.

(** The calls of the loop: one probe for each draw, in the order of the
    draws, and after a hit the detail fetch of the identifier just probed. *)
Lemma attempt_loop_probes (remaining : nat) (maxDecimal : number) (st : state) :
  exists n,
    (n <= remaining)%nat /\
    draws (snd (attempt_loop w remaining maxDecimal st)) = (draws st + n)%nat /\
    (calls (snd (attempt_loop w remaining maxDecimal st)) =
       calls st ++ probes_of w maxDecimal (draws st) n \/
     ((1 <= n)%nat /\
      calls (snd (attempt_loop w remaining maxDecimal st)) =
        calls st ++ probes_of w maxDecimal (draws st) n ++
        [detail_call (candidate w maxDecimal (draws st + (n - 1)))])).
Proof.
  revert st; induction remaining as [| fewer IH]; intros st.
  - exists 0%nat. cbn. rewrite app_nil_r, Nat.add_0_r. auto.
  - destruct (reports_existence
                (fetch_answer w (List.length (calls st))
                   (map_url (candidate w maxDecimal (draws st))))) eqn:Report.
    + exists 1%nat. rewrite (attempt_hit w fewer maxDecimal st Report).
      split; [lia |].
      assert (forall answer st1,
                 calls (snd (settle_details answer st1)) = calls st1 /\
                 draws (snd (settle_details answer st1)) = draws st1) as Kept.
      { intros [resp | e] st1; cbn; [destruct (json resp) |]; auto. }
      destruct (Kept (fetch_answer w (S (List.length (calls st)))
                        (map_url (candidate w maxDecimal (draws st))))
                     (advance [probe_call (candidate w maxDecimal (draws st));
                               detail_call (candidate w maxDecimal (draws st))] 1 st))
        as [-> ->].
      split; [reflexivity |]. right. split; [lia |].
      rewrite probes_of_succ. cbn. rewrite Nat.add_0_r. reflexivity.
    + rewrite (attempt_miss w fewer maxDecimal st Report).
      destruct (IH (record_call (probe_call (candidate w maxDecimal (draws st)))
                      (record_draw st))) as (n & Le & Draws & Calls).
      cbn [draws calls record_call record_draw] in Draws, Calls.
      exists (S n). split; [lia |]. split; [lia |].
      rewrite probes_of_succ. rewrite <- !app_assoc in Calls. cbn [app] in *.
      destruct Calls as [Calls | [Pos Calls]].
      * left. exact Calls.
      * right. split; [lia |]. rewrite Calls.
        replace (draws st + (S n - 1))%nat with (S (draws st) + (n - 1))%nat by lia.
        reflexivity.
Qed.

(** The calls and the draws of a whole search. *)
Lemma search_history (st : state) :
  match fst (fetchLatestMapId w st) with
  | Throw _ =>
      calls_since st (findRandomMap w st) = [latest_call] /\
      draws (findRandomMap w st) = draws st
  | Ret latestMapId =>
      exists n,
        (n <= maxAttempts)%nat /\
        draws (findRandomMap w st) = (draws st + n)%nat /\
        (calls_since st (findRandomMap w st) =
           latest_call :: probes_of w (hexToDecimal latestMapId) (draws st) n \/
         ((1 <= n)%nat /\
          calls_since st (findRandomMap w st) =
            latest_call :: probes_of w (hexToDecimal latestMapId) (draws st) n ++
            [detail_call (candidate w (hexToDecimal latestMapId) (draws st + (n - 1)))]))
  end.
Proof.
  pose proof (fetchLatestMapId_calls w (searching st)) as Called.
  pose proof (fetchLatestMapId_result w st (searching st) eq_refl) as Result.
  rewrite <- Result.
  assert (calls (findRandomMap w st) = calls (snd (search w (searching st))) /\
          draws (findRandomMap w st) = draws (snd (search w (searching st))))
    as [CallsF DrawsF].
  { unfold findRandomMap. fold (searching st).
    destruct (search w (searching st)) as [[u | e] st2]; split; reflexivity. }
  unfold search, bind in CallsF, DrawsF.
  destruct (fetchLatestMapId w (searching st)) as [[latestMapId | e] st1];
    cbn [fst snd] in *; subst st1.
  - set (st1 := record_call latest_call (searching st)) in *.
    destruct (attempt_loop_probes maxAttempts (hexToDecimal latestMapId) st1)
      as (n & Le & Draws & Calls).
    assert (calls (findRandomMap w st) =
              calls (snd (attempt_loop w maxAttempts (hexToDecimal latestMapId) st1)) /\
            draws (findRandomMap w st) =
              draws (snd (attempt_loop w maxAttempts (hexToDecimal latestMapId) st1)))
      as [CallsL DrawsL].
    { rewrite CallsF, DrawsF.
      destruct (attempt_loop w maxAttempts (hexToDecimal latestMapId) st1)
        as [[u | e] st2]; cbn [snd]; [| split; reflexivity].
      destruct (negb (truthy (randomMap st2))); split; reflexivity. }
    exists n. split; [exact Le |]. split; [rewrite DrawsL, Draws; reflexivity |].
    assert (calls st1 = calls st ++ [latest_call]) as Base by reflexivity.
    change (draws st1) with (draws st) in Calls.
    destruct Calls as [Calls | [Pos Calls]]; [left | right; split; [exact Pos |]];
      apply calls_since_app; rewrite CallsL, Calls, Base, <- app_assoc; reflexivity.
  - split; [apply calls_since_app; rewrite CallsF |rewrite DrawsF]; reflexivity.
Qed.


(** X6.  A search makes its lookup first and only once, at most one
    detail fetch, at most twelve calls in all, and one [Math.random()] draw
    for each probe. *)
Theorem search_call_budget (st : state) :
  let st' := findRandomMap w st in
  let new := calls_since st st' in
  nth_error new 0 = Some latest_call /\
  count_from AtLatest new = 1%nat /\
  (count_from AtDetail new <= 1)%nat /\
  (List.length new <= 12)%nat /\
  draws st' = (draws st + count_from AtProbe new)%nat.
Proof.
  intros st' new. subst st' new.
  pose proof (search_history st) as History.
  destruct (fst (fetchLatestMapId w st)) as [latestMapId | e].
  - destruct History as (n & Le & Draws & Calls).
    unfold maxAttempts in Le.
    destruct (probes_of_counts (hexToDecimal latestMapId) (draws st) n)
      as (Len & Probes & Latest & Details).
    rewrite Draws.
    destruct Calls as [-> | [_ ->]].
    + split; [reflexivity |].
      change (latest_call :: ?l) with ([latest_call] ++ l).
      rewrite !count_from_app, List.length_app, Len, Probes, Latest, Details.
      change (count_from AtLatest [latest_call]) with 1%nat.
      change (count_from AtDetail [latest_call]) with 0%nat.
      change (count_from AtProbe [latest_call]) with 0%nat.
      cbn [List.length]. repeat split; lia.
    + split; [reflexivity |].
      change (latest_call :: ?l ++ ?d) with ([latest_call] ++ l ++ d).
      rewrite !count_from_app, !List.length_app, Len, Probes, Latest, Details.
      change (count_from AtLatest [latest_call]) with 1%nat.
      change (count_from AtDetail [latest_call]) with 0%nat.
      change (count_from AtProbe [latest_call]) with 0%nat.
      change (count_from AtLatest [detail_call ?x]) with 0%nat.
      change (count_from AtDetail [detail_call ?x]) with 1%nat.
      change (count_from AtProbe [detail_call ?x]) with 0%nat.
      cbn [List.length]. repeat split; lia.
  - destruct History as [-> ->].
    change (count_from AtProbe [latest_call]) with 0%nat.
    change (count_from AtDetail [latest_call]) with 0%nat.
    change (count_from AtLatest [latest_call]) with 1%nat.
    cbn [List.length nth_error]. repeat split; lia.
Qed.

(** X7.  Call [i + 1] of a search, when it is a probe, asks for the
    identifier computed from draw [i] of the search alone, whatever was
    probed before; when it is the detail fetch, it asks for the identifier
    of the probe just before it. *)
Theorem probes_follow_draws (st : state) (latestMapId : value) (i : nat) (c : call) :
  fst (fetchLatestMapId w st) = Ret latestMapId ->
  nth_error (calls_since st (findRandomMap w st)) (S i) = Some c ->
  (from c = AtProbe ->
   c = probe_call (candidate w (hexToDecimal latestMapId) (draws st + i))) /\
  (from c = AtDetail ->
   (1 <= i)%nat /\
   c = detail_call (candidate w (hexToDecimal latestMapId) (draws st + (i - 1))) /\
   nth_error (calls_since st (findRandomMap w st)) i =
     Some (probe_call (candidate w (hexToDecimal latestMapId) (draws st + (i - 1))))).
Proof.
  intros Lookup Nth.
  pose proof (search_history st) as History. rewrite Lookup in History.
  destruct History as (n & _ & _ & Calls).
  set (md := hexToDecimal latestMapId) in *.
  destruct (probes_of_counts md (draws st) n) as (Len & _).
  destruct Calls as [Calls | [Pos Calls]]; rewrite Calls in *; cbn [nth_error] in Nth.
  - destruct (nth_probes_of md (draws st) n i c Nth) as [_ ->].
    split; [reflexivity | discriminate].
  - destruct (Nat.lt_ge_cases i n) as [Before | After].
    + rewrite nth_error_app1 in Nth by lia.
      destruct (nth_probes_of md (draws st) n i c Nth) as [_ ->].
      split; [reflexivity | discriminate].
    + rewrite nth_error_app2 in Nth by lia. rewrite Len in Nth.
      destruct (i - n)%nat as [| k] eqn:Off; cbn in Nth;
        [| destruct k; discriminate Nth].
      injection Nth as <-. assert (i = n) as -> by lia.
      split; [discriminate |]. intros _.
      split; [lia |]. split; [reflexivity |].
      destruct n as [| n]; [lia |]. cbn [nth_error].
      rewrite nth_error_app1 by lia.
      replace (S n - 1)%nat with n by lia.
      unfold probes_of. rewrite nth_error_map, nth_error_seq.
      destruct (Nat.ltb_spec n (S n)); [reflexivity | lia].
Qed.


(** The identifier of an attempt is the hexadecimal form of an integer of
    the sampling interval. *)
Lemma candidate_in_range (maxId : Z) (draw : nat) :
  1 <= maxId -> representable maxId -> unit_ok (random_answer w draw) ->
  exists k, candidate w (Int maxId) draw = decimalToHex (Int k) /\ 1 <= k <= maxId.
Proof.
  intros Hmax Rep (Hm & Hk & Hmk).
  pose proof (representable_fixed maxId ltac:(lia) Rep) as Fix.
  destruct Rep as [_ Fin]. rewrite Z.abs_eq in Fin by lia.
  pose proof (interval_width maxId Hmax Fix) as [W1 Wn].
  set (r := random_answer w draw) in *.
  set (width := round_nat (round_nat (maxId - 1) + 1)) in *.
  assert (0 <= round_nat (maxId - 1) <= maxId) as [A0 An].
  { split; [apply round_nat_nonneg; lia | apply round_nat_le; [lia | assumption]]. }
  pose proof (product_below (mant r) (expo r) width Hm (proj1 Hk) Hmk W1) as [F0 Fw].
  assert (round_nat width = width) as WFix by (apply round_nat_idem; lia).
  assert (1 <= round_nat (round_nat (mant r * width) / 2 ^ expo r + 1) <= width)
    as [C1 Cw].
  { split; [apply round_nat_ge; [lia | reflexivity] | apply round_nat_le; [lia | assumption]]. }
  exists (round_nat (round_nat (mant r * width) / 2 ^ expo r + 1)).
  split; [| lia].
  unfold candidate. fold r. f_equal.
  unfold sub. cbn [neg add].
  replace (maxId + - (1)) with (maxId - 1) by lia.
  rewrite (of_Z_finite (maxId - 1)) by lia.
  cbn [add]. rewrite (of_Z_finite (round_nat (maxId - 1) + 1)) by (fold width; lia).
  fold width. cbn [floor_mul add].
  rewrite (round_of_nonneg (mant r * width)) by (apply Z.mul_nonneg_nonneg; lia).
  apply of_Z_finite; lia.
Qed.

(** X8.  When the latest identifier reads as a positive integer [maxId],
    every probe of the search asks for the hexadecimal form of an integer
    from 1 to [maxId]. *)
Theorem search_probes_in_range (st : state) (latestMapId : value) (maxId : Z) :
  fst (fetchLatestMapId w st) = Ret latestMapId ->
  hexToDecimal latestMapId = Int maxId -> 1 <= maxId -> representable maxId ->
  (forall draw, unit_ok (random_answer w draw)) ->
  forall i c,
    nth_error (calls_since st (findRandomMap w st)) i = Some c -> from c = AtProbe ->
    exists k, c = probe_call (decimalToHex (Int k)) /\ 1 <= k <= maxId.
Proof.
  intros Lookup Max Pos Rep Random i c Nth Probe.
  destruct i as [| i].
  - pose proof (search_history st) as History. rewrite Lookup in History.
    destruct History as (n & _ & _ & [Calls | [_ Calls]]);
      rewrite Calls in Nth; injection Nth as <-; discriminate Probe.
  - pose proof (search_history st) as History. rewrite Lookup, Max in History.
    destruct History as (n & _ & _ & Calls).
    destruct (probes_of_counts (Int maxId) (draws st) n) as (Len & _).
    assert (c = probe_call (candidate w (Int maxId) (draws st + i))) as ->.
    { destruct Calls as [Calls | [_ Calls]]; rewrite Calls in Nth; cbn [nth_error] in Nth.
      - apply (nth_probes_of _ _ _ _ _ Nth).
      - destruct (Nat.lt_ge_cases i n) as [Before | After].
        + rewrite nth_error_app1 in Nth by lia. apply (nth_probes_of _ _ _ _ _ Nth).
        + rewrite nth_error_app2 in Nth by lia.
          destruct (i - List.length (probes_of w (Int maxId) (draws st) n))%nat
            as [| [| k]]; cbn in Nth; try discriminate Nth.
          injection Nth as <-. discriminate Probe. }
    destruct (candidate_in_range maxId (draws st + i) Pos Rep (Random _)) as (k & -> & Range).
    exists k. split; [reflexivity | exact Range].
Qed.


(** Whatever makes the lookup throw ends the search there. *)
Lemma lookup_throw_ends_search (st : state) (e : exn) :
  fst (fetchLatestMapId w st) = Throw e ->
  error (findRandomMap w st) = Some (message_of e) /\
  randomMap (findRandomMap w st) = VNull /\
  calls_since st (findRandomMap w st) = [latest_call].
Proof.
  intros Thrown.
  destruct (findRandomMap_ending w st) as [_ End].
  destruct End as [e' Failed Calls Null Err | id ? Found | id ? ? Found];
    try congruence.
  assert (e' = e) as -> by congruence.
  rewrite (calls_since_app _ _ _ Calls). auto.
Qed.

(** X10.  When the body of the latest-map answer does not parse, the
    search fails with the message of what [json()] threw, and makes no
    probe. *)
Theorem unparsable_listing (st : state) (resp : response) (e : exn) :
  fetch_answer w (List.length (calls st)) latest_url = Ret resp ->
  ok resp = true -> json resp = Throw e ->
  error (findRandomMap w st) = Some (message_of e) /\
  randomMap (findRandomMap w st) = VNull /\
  calls_since st (findRandomMap w st) = [latest_call].
Proof.
  intros Answer Ok Body. apply lookup_throw_ends_search.
  unfold fetchLatestMapId, bind, fetch, response_json, lift.
  rewrite Answer, Ok. cbn [negb fst]. rewrite Body. reflexivity.
Qed.

(** X11.  When the latest-map answer is an object without [docs], or
    with [docs] null or an empty array, reading [docs[0].id] throws: the
    search fails with the engine's TypeError message, and makes no probe. *)
Theorem empty_listing (st : state) (resp : response) (fields : list (string * value)) :
  fetch_answer w (List.length (calls st)) latest_url = Ret resp ->
  ok resp = true -> json resp = Ret (VObject fields) ->
  lookup "docs" fields = VUndefined \/ lookup "docs" fields = VNull \/
  lookup "docs" fields = VArray [] ->
  error (findRandomMap w st) = Some (type_error_message w) /\
  randomMap (findRandomMap w st) = VNull /\
  calls_since st (findRandomMap w st) = [latest_call].
Proof.
  intros Answer Ok Body Docs.
  apply (lookup_throw_ends_search st (ErrorObj (type_error_message w))).
  unfold fetchLatestMapId, bind, fetch, response_json, lift.
  rewrite Answer, Ok. cbn [negb fst]. rewrite Body. cbn [get_named].
  destruct Docs as [-> | [-> | ->]]; reflexivity.
Qed.

Lemma last_snoc (l : list call) (c d : call) : last (l ++ [c]) d = c.
Proof.
  induction l as [| x l IH]; [reflexivity |].
  cbn [app last]. destruct (l ++ [c]) eqn:E; [destruct l; discriminate E | exact IH].
Qed.

(** X12.  A map is shown after a search only if it is the body that the
    detail fetch of this very search returned, the last call made; what
    [randomMap] held before the search never survives it. *)
Theorem shown_map_is_fresh (st : state) :
  map_shown (findRandomMap w st) = true ->
  exists id,
    last (calls (findRandomMap w st)) latest_call = detail_call id /\
    details_of
      (fetch_answer w (List.length (calls (findRandomMap w st)) - 1) (map_url id)) =
      Ret (randomMap (findRandomMap w st)) /\
    error (findRandomMap w st) = None.
Proof.
  unfold map_shown. intros Shown.
  destruct (findRandomMap_ending w st) as [_ End].
  destruct End as [e _ _ Null _ | id misses _ _ _ _ Null _
                  | id misses hit _ _ _ _ Calls Details];
    try (rewrite Null in Shown; discriminate Shown).
  exists hit. rewrite Calls.
  replace (calls st ++ latest_call :: misses ++ [probe_call hit; detail_call hit])
    with ((calls st ++ latest_call :: misses ++ [probe_call hit]) ++ [detail_call hit])
    by (rewrite <- !app_assoc; cbn; rewrite <- app_assoc; reflexivity).
  rewrite last_snoc. split; [reflexivity |].
  rewrite !List.length_app. cbn [List.length]. rewrite List.length_app. cbn [List.length].
  replace (List.length (calls st) + S (List.length misses + 1) + 1 - 1)%nat
    with (S (List.length (calls st)) + S (List.length misses))%nat by lia.
  destruct (details_of _) as [details | e].
  - destruct Details as [E1 E2]. rewrite E1 in *. rewrite Shown in E2. auto.
  - destruct Details as [Null _]. rewrite Null in Shown. discriminate Shown.
Qed.


End History.

Lemma probes_follow_draws_witness :
  probe_call "a" = probe_call (candidate scenario (hexToDecimal (VString "10")) (0 + 2)).
Proof.
  apply (proj1 (probes_follow_draws scenario initial (VString "10") 2 (probe_call "a")
                  eq_refl eq_refl)).
  reflexivity.
Defined.

Lemma search_probes_in_range_witness :
  exists k, probe_call "a" = probe_call (decimalToHex (Int k)) /\ 1 <= k <= 16.
Proof.
  apply (search_probes_in_range scenario initial (VString "10") 16) with (i := 3%nat).
  - reflexivity.
  - reflexivity.
  - lia.
  - split; [reflexivity | vm_compute; reflexivity].
  - intros [| [| [| draw]]]; unfold unit_ok; cbn; try lia.
    destruct draw; cbn; lia.
  - reflexivity.
  - reflexivity.
Defined.


Lemma unparsable_listing_witness :
  error (findRandomMap garbled initial) = Some "Unexpected token <"%string /\
  randomMap (findRandomMap garbled initial) = VNull /\
  calls_since initial (findRandomMap garbled initial) = [latest_call].
Proof.
  apply (unparsable_listing garbled initial
           {| ok := true; json := Throw (ErrorObj "Unexpected token <") |}
           (ErrorObj "Unexpected token <"));
    reflexivity.
Defined.

Lemma empty_listing_witness :
  error (findRandomMap no_docs initial) = Some (type_error_message no_docs) /\
  randomMap (findRandomMap no_docs initial) = VNull /\
  calls_since initial (findRandomMap no_docs initial) = [latest_call].
Proof.
  apply (empty_listing no_docs initial
           {| ok := true; json := Ret (VObject [("docs"%string, VArray [])]) |}
           [("docs"%string, VArray [])]);
    try reflexivity.
  right. right. reflexivity.
Defined.

Lemma shown_map_is_fresh_witness :
  exists id,
    last (calls (findRandomMap scenario initial)) latest_call = detail_call id /\
    details_of
      (fetch_answer scenario (List.length (calls (findRandomMap scenario initial)) - 1)
         (map_url id)) =
      Ret (randomMap (findRandomMap scenario initial)) /\
    error (findRandomMap scenario initial) = None.
Proof.
  apply shown_map_is_fresh. reflexivity.
Defined.
